(** * RealitMixte: maze generation, ball dynamics and pose smoothing

    A shallow embedding of [src/Ball.hpp] (classes [Maze] and [Ball]) and of
    [src/Smoothing/smoothing.cpp] ([PoseSmoother::smooth]).

    Conventions.
    - C++ [int] values are [Z]; no overflow arises in the code modelled.
    - [float] and [double] values are rationals ([Q]): every finite float is
      a rational, and the arithmetic is taken exact (no rounding, no
      overflow, no NaN).  Equality of computed numbers is [Qeq].
    - [cv::Rodrigues], [glm::quat_cast], [glm::mat3_cast], [glm::slerp],
      [std::srand] and [std::rand] belong to OpenCV, GLM and libc; they are
      parameters of the sections that use them. *)

From Stdlib Require Import ZArith QArith Qabs Qround Lia Lqa List Bool.
From stdpp Require Import base tactics option list relations.
Import ListNotations.

Local Open Scope Z_scope.

(** ** class Maze *)

Module Maze.

(** [struct Cell]: four wall flags, all present initially, and the
    [visited] mark used while carving. *)
Record Cell : Type := mkCell
  { wN : bool; wS : bool; wE : bool; wW : bool; visited : bool }.

Definition Cell_init : Cell := mkCell true true true true false.

Record t : Type := mk
  { w : Z; h : Z; cellW : Q; cellH : Q; wallThick : Q; grid : list Cell }.

(** The constructor: [grid.resize(w * h)] value-initialises the cells,
    the cell size is the sheet size divided by the cell count. *)
Definition create (width height : Z) (sheetWidth sheetHeight wallThickness : Q) : t :=
  mk width height
     (sheetWidth / inject_Z width)%Q (sheetHeight / inject_Z height)%Q
     wallThickness
     (replicate (Z.to_nat (width * height)) Cell_init).

(** [at(x, y)]: both coordinates are clamped into the grid, then the cell
    [grid[y * w + x]] is taken. *)
Definition clamp_x (m : t) (x : Z) : Z :=
  let x := if x <? 0 then 0 else x in
  if x >=? w m then w m - 1 else x.

Definition clamp_y (m : t) (y : Z) : Z :=
  let y := if y <? 0 then 0 else y in
  if y >=? h m then h m - 1 else y.

Definition index (m : t) (x y : Z) : nat :=
  Z.to_nat (clamp_y m y * w m + clamp_x m x).

Definition at_ (m : t) (x y : Z) : Cell :=
  default Cell_init (grid m !! index m x y).

(** An assignment through the reference returned by [at(x, y)]. *)
Definition set_at (m : t) (x y : Z) (f : Cell -> Cell) : t :=
  mk (w m) (h m) (cellW m) (cellH m) (wallThick m)
     (alter f (index m x y) (grid m)).

Definition set_wN (b : bool) (c : Cell) : Cell := mkCell b (wS c) (wE c) (wW c) (visited c).
Definition set_wS (b : bool) (c : Cell) : Cell := mkCell (wN c) b (wE c) (wW c) (visited c).
Definition set_wE (b : bool) (c : Cell) : Cell := mkCell (wN c) (wS c) b (wW c) (visited c).
Definition set_wW (b : bool) (c : Cell) : Cell := mkCell (wN c) (wS c) (wE c) b (visited c).
Definition set_visited (b : bool) (c : Cell) : Cell := mkCell (wN c) (wS c) (wE c) (wW c) b.

Definition dirs : list (Z * Z) := [(0, 1); (1, 0); (0, -1); (-1, 0)].

(** The test that guards [neighbors.push_back]. *)
Definition candidate (m : t) (p : Z * Z) : bool :=
  (0 <=? p.1) && (p.1 <? w m) && (0 <=? p.2) && (p.2 <? h m)
  && negb (visited (at_ m p.1 p.2)).

Definition neighbors (m : t) (cx cy : Z) : list (Z * Z) :=
  List.filter (candidate m) (map (fun d : Z * Z => (cx + d.1, cy + d.2)) dirs).

(** The wall shared by the current cell and the chosen neighbour is cleared
    on both sides. *)
Definition carve (m : t) (cx cy nx ny : Z) : t :=
  if nx >? cx then set_at (set_at m cx cy (set_wE false)) nx ny (set_wW false)
  else if nx <? cx then set_at (set_at m cx cy (set_wW false)) nx ny (set_wE false)
  else if ny >? cy then set_at (set_at m cx cy (set_wS false)) nx ny (set_wN false)
  else if ny <? cy then set_at (set_at m cx cy (set_wN false)) nx ny (set_wS false)
  else m.

Section Generate.

(** The state of the C library generator, [std::srand] and [std::rand]. *)
Variable rng : Type.
Variable srand : Z -> rng -> rng.
Variable rand : rng -> Z * rng.

(** [neighbors[std::rand() % neighbors.size()]]: the [int] is converted to
    [size_t] before the remainder is taken. *)
Definition pick (r : Z) (nb : list (Z * Z)) : Z * Z :=
  nth (Z.to_nat ((r mod 2 ^ 64) mod Z.of_nat (length nb))) nb (0, 0).

(** The [while (!stack.empty())] loop; [fuel] bounds the iterations. *)
Fixpoint generate_loop (fuel : nat) (m : t) (stack : list (Z * Z)) (g : rng)
  : option (t * rng) :=
  match stack with
  | [] => Some (m, g)
  | (cx, cy) :: rest =>
    match fuel with
    | O => None
    | S fuel' =>
      match neighbors m cx cy with
      | [] => generate_loop fuel' m rest g
      | nb =>
        let '(r, g') := rand g in
        let next := pick r nb in
        let m1 := carve m cx cy next.1 next.2 in
        let m2 := set_at m1 next.1 next.2 (set_visited true) in
        generate_loop fuel' m2 (next :: stack) g'
      end
    end
  end.

(** [generate()]: [now] is the value of [std::time(0)], [g] the state the
    generator is in when the call is made. *)
Definition generate (now : Z) (g : rng) (m : t) : option (t * rng) :=
  let g0 := srand (now mod 2 ^ 32) g in
  let m0 := set_at m 0 0 (set_visited true) in
  generate_loop (2 * length (grid m)) m0 [(0, 0)] g0.

End Generate.

End Maze.

(** ** Numbers, vectors and matrices *)

Local Open Scope Q_scope.

Definition Qltb (a b : Q) : bool := negb (Qle_bool b a).

(** The conversion [(int)v] of a floating value truncates toward zero. *)
Definition Qtrunc (q : Q) : Z := Z.quot (Qnum q) (Zpos (Qden q)).

(** [glm::vec2]. *)
Record vec2 : Type := mkvec2 { X : Q; Y : Q }.

(** A 3x1 [cv::Mat] and a 3x3 [cv::Mat], stored by rows. *)
Record Vec3 : Type := mkVec3 { c0 : Q; c1 : Q; c2 : Q }.
Record Mat3 : Type := mkMat3 { row0 : Vec3; row1 : Vec3; row2 : Vec3 }.

Definition eye : Mat3 := mkMat3 (mkVec3 1 0 0) (mkVec3 0 1 0) (mkVec3 0 0 1).

Definition col (j : Vec3 -> Q) (M : Mat3) : Vec3 :=
  mkVec3 (j (row0 M)) (j (row1 M)) (j (row2 M)).

(** [M.t()]. *)
Definition transpose (M : Mat3) : Mat3 := mkMat3 (col c0 M) (col c1 M) (col c2 M).

Definition dot3 (a b : Vec3) : Q := c0 a * c0 b + c1 a * c1 b + c2 a * c2 b.

(** [M * v] and [A * B]. *)
Definition mul_vec (M : Mat3) (v : Vec3) : Vec3 :=
  mkVec3 (dot3 (row0 M) v) (dot3 (row1 M) v) (dot3 (row2 M) v).

Definition mul (A B : Mat3) : Mat3 :=
  let rowB (a : Vec3) := mkVec3 (dot3 a (col c0 B)) (dot3 a (col c1 B)) (dot3 a (col c2 B)) in
  mkMat3 (rowB (row0 A)) (rowB (row1 A)) (rowB (row2 A)).

(** ** class Ball *)

Module Ball.

Record t : Type := mk
  { pos : vec2; vel : vec2; radius : Q;
    hasFlatRef : bool; R0 : Mat3;
    g : Q; gain : Q; deadzone : Q }.

Definition with_pos (p : vec2) (b : t) : t :=
  mk p (vel b) (radius b) (hasFlatRef b) (R0 b) (g b) (gain b) (deadzone b).
Definition with_vel (v : vec2) (b : t) : t :=
  mk (pos b) v (radius b) (hasFlatRef b) (R0 b) (g b) (gain b) (deadzone b).
Definition with_flat (R : Mat3) (b : t) : t :=
  mk (pos b) (vel b) (radius b) true R (g b) (gain b) (deadzone b).

(** [Ball(float r)], with the default settings of the class. *)
Definition create (r : Q) : t :=
  mk (mkvec2 0 0) (mkvec2 0 0) r false eye 9.81 1 0.03.

Definition reset (m : Maze.t) (b : t) : t :=
  with_vel (mkvec2 0 0)
    (with_pos (mkvec2 (Maze.cellW m * 0.5) (Maze.cellH m * 0.5)) b).

Definition applyDeadzone (v dz : Q) : Q :=
  if Qltb (Qabs v) dz then 0
  else
    let s := if Qltb 0 v then 1 else -1 in
    let a := (Qabs v - dz) / (1 - dz) in
    s * a.

Definition bounce : Q := 0.4.

Section Update.

(** [cv::Rodrigues], from a rotation vector to a rotation matrix. *)
Variable Rodrigues : Vec3 -> Mat3.

Definition setFlatReference (rvec : Vec3) (b : t) : t :=
  with_flat (Rodrigues rvec) b.

(** Step 2 of [update]: the reference is taken if there is none yet. *)
Definition latch (R : Mat3) (b : t) : t :=
  if hasFlatRef b then b else with_flat R b.

(** Steps 3 to 5: gravity in the frame of the board. *)
Definition g0 : Vec3 := mkVec3 0 0 (-1).

Definition g_cur (R0 R : Mat3) : Vec3 :=
  let Rrel := mul (transpose R0) R in
  mul_vec (transpose Rrel) g0.

(** Steps 6 and 7: the planar acceleration [acc]. *)
Definition acc (R : Mat3) (b : t) : vec2 :=
  let gc := g_cur (R0 b) R in
  let ax := c0 gc in
  let ay := c1 gc in
  let ax := applyDeadzone ax (deadzone b) in
  let ay := applyDeadzone ay (deadzone b) in
  mkvec2 (- ax * g b * gain b) (- ay * g b * gain b).

(** Step 8: the new velocity, damped, and the tentative position. *)
Definition integrate_vel (dt : Q) (a : vec2) (b : t) : vec2 :=
  let v := mkvec2 (X (vel b) + X a * dt) (Y (vel b) + Y a * dt) in
  mkvec2 (X v * 0.85) (Y v * 0.85).

Definition tentative (dt : Q) (v : vec2) (b : t) : vec2 :=
  mkvec2 (X (pos b) + X v * dt) (Y (pos b) + Y v * dt).

(** The cell the ball is in, from the position before the step. *)
Definition gx (m : Maze.t) (b : t) : Z := Qtrunc (X (pos b) / Maze.cellW m).
Definition gy (m : Maze.t) (b : t) : Z := Qtrunc (Y (pos b) / Maze.cellH m).

Definition cellLeft (m : Maze.t) (b : t) : Q := inject_Z (gx m b) * Maze.cellW m.
Definition cellRight (m : Maze.t) (b : t) : Q := inject_Z (gx m b + 1) * Maze.cellW m.
Definition cellTop (m : Maze.t) (b : t) : Q := inject_Z (gy m b) * Maze.cellH m.
Definition cellBottom (m : Maze.t) (b : t) : Q := inject_Z (gy m b + 1) * Maze.cellH m.

(** The collisions with the walls of that cell, one axis at a time; the
    result is the position and the velocity on the axis. *)
Definition collide_x (m : Maze.t) (b : t) (nx vx : Q) : Q * Q :=
  let cell := Maze.at_ m (gx m b) (gy m b) in
  let r := radius b in
  if Maze.wW cell && Qltb (nx - r) (cellLeft m b) then (cellLeft m b + r, - vx * bounce)
  else if Maze.wE cell && Qltb (cellRight m b) (nx + r) then (cellRight m b - r, - vx * bounce)
  else (nx, vx).

Definition collide_y (m : Maze.t) (b : t) (ny vy : Q) : Q * Q :=
  let cell := Maze.at_ m (gx m b) (gy m b) in
  let r := radius b in
  if Maze.wN cell && Qltb (ny - r) (cellTop m b) then (cellTop m b + r, - vy * bounce)
  else if Maze.wS cell && Qltb (cellBottom m b) (ny + r) then (cellBottom m b - r, - vy * bounce)
  else (ny, vy).

(** The last clamp, to the bounds of the maze. *)
Definition maxW (m : Maze.t) (b : t) : Q := inject_Z (Maze.w m) * Maze.cellW m - radius b.
Definition maxH (m : Maze.t) (b : t) : Q := inject_Z (Maze.h m) * Maze.cellH m - radius b.

Definition clamp (lo hi v : Q) : Q :=
  let v := if Qltb v lo then lo else v in
  if Qltb hi v then hi else v.

Definition update (dt : Q) (rvec : Vec3) (m : Maze.t) (b : t) : t :=
  let R := Rodrigues rvec in
  let b1 := latch R b in
  let a := acc R b1 in
  let v := integrate_vel dt a b1 in
  let nextPos := tentative dt v b1 in
  let '(nx, vx) := collide_x m b1 (X nextPos) (X v) in
  let '(ny, vy) := collide_y m b1 (Y nextPos) (Y v) in
  let nx := clamp (radius b1) (maxW m b1) nx in
  let ny := clamp (radius b1) (maxH m b1) ny in
  with_pos (mkvec2 nx ny) (with_vel (mkvec2 vx vy) b1).

End Update.

End Ball.

(** ** struct PoseSmoother *)

(** [glm::quat] and [glm::mat3]; a [glm::mat3] is stored by columns, [m[j]]
    is its column [j]. *)
Record quat : Type := mkquat { qw : Q; qx : Q; qy : Q; qz : Q }.
Record glm_mat3 : Type := mkglm { gcol0 : Vec3; gcol1 : Vec3; gcol2 : Vec3 }.

(** [glm::dot] on quaternions and the unary minus. *)
Definition qdot (a b : quat) : Q :=
  qw a * qw b + qx a * qx b + qy a * qy b + qz a * qz b.

Definition qneg (a : quat) : quat := mkquat (- qw a) (- qx a) (- qy a) (- qz a).

Module PoseSmoother.

(** A [cv::Mat] that holds a 3x1 vector, or nothing ([empty()]). *)
Definition cvMat : Type := option Vec3.

Record t : Type := mk
  { hasPose : bool; rPrev : cvMat; tPrev : cvMat; alphaPose : Q }.

Definition create : t := mk false None None 0.20.

(** [(1.0 - alphaPose) * tPrev + alphaPose * tvec]. *)
Definition ema (a : Q) (p v : Vec3) : Vec3 :=
  mkVec3 ((1 - a) * c0 p + a * c0 v) ((1 - a) * c1 p + a * c1 v)
         ((1 - a) * c2 p + a * c2 v).

Section Smooth.

(** [cv::Rodrigues] in both directions and the GLM conversions. *)
Variable Rodrigues : Vec3 -> Mat3.
Variable RodriguesInv : Mat3 -> Vec3.
Variable quat_cast : glm_mat3 -> quat.
Variable mat3_cast : quat -> glm_mat3.
Variable slerp : quat -> quat -> Q -> quat.

(** The lambda [toQuat]: [m[j][i] = R(i, j)]. *)
Definition toQuat (R : Mat3) : quat :=
  quat_cast (mkglm (col c0 R) (col c1 R) (col c2 R)).

(** [Rsm(i, j) = mSm[j][i]]. *)
Definition fromGlm (m : glm_mat3) : Mat3 :=
  mkMat3 (mkVec3 (c0 (gcol0 m)) (c0 (gcol1 m)) (c0 (gcol2 m)))
         (mkVec3 (c1 (gcol0 m)) (c1 (gcol1 m)) (c1 (gcol2 m)))
         (mkVec3 (c2 (gcol0 m)) (c2 (gcol1 m)) (c2 (gcol2 m))).

(** The sign correction of the current quaternion. *)
Definition signCorrect (qCur qPre : quat) : quat :=
  if Qltb (qdot qCur qPre) 0 then qneg qCur else qCur.

Definition smoothRotation (a : Q) (rp r : Vec3) : Vec3 :=
  let Rcur := Rodrigues r in
  let Rprev := Rodrigues rp in
  let qCur := toQuat Rcur in
  let qPre := toQuat Rprev in
  let qCur := signCorrect qCur qPre in
  let qSm := slerp qPre qCur a in
  let mSm := mat3_cast qSm in
  RodriguesInv (fromGlm mSm).

(** [smooth(rvec, tvec)]: the result is the new state and the two
    arguments, which are passed by reference; [None] stands for the
    [cv::Exception] OpenCV raises on an empty operand. *)
Definition smooth (s : t) (rvec tvec : cvMat) : option (t * cvMat * cvMat) :=
  match rvec, tvec with
  | Some r, Some tv =>
    if negb (hasPose s) then
      Some (mk true rvec tvec (alphaPose s), rvec, tvec)
    else
      match tPrev s, rPrev s with
      | Some tp, Some rp =>
        let tvec' := ema (alphaPose s) tp tv in
        let rvec' := smoothRotation (alphaPose s) rp r in
        Some (mk true (Some rvec') (Some tvec') (alphaPose s), Some rvec', Some tvec')
      | _, _ => None
      end
  | _, _ => Some (s, rvec, tvec)
  end.

End Smooth.

End PoseSmoother.

(** ** Vocabulary of the maze properties *)

Local Open Scope Z_scope.

Definition in_grid (m : Maze.t) (p : Z * Z) : Prop :=
  0 <= p.1 < Maze.w m /\ 0 <= p.2 < Maze.h m.

Definition cell_at (m : Maze.t) (p : Z * Z) : Maze.Cell := Maze.at_ m p.1 p.2.

(** The grid has the size the constructor gives it. *)
Definition well_formed (m : Maze.t) : Prop :=
  1 <= Maze.w m /\ 1 <= Maze.h m /\
  length (Maze.grid m) = Z.to_nat (Maze.w m * Maze.h m).

(** The four sides of a cell; south is the side of growing [y]. *)
Inductive side : Type := North | South | East | West.

Definition move (d : side) (p : Z * Z) : Z * Z :=
  match d with
  | North => (p.1, p.2 - 1)
  | South => (p.1, p.2 + 1)
  | East => (p.1 + 1, p.2)
  | West => (p.1 - 1, p.2)
  end.

Definition opposite (d : side) : side :=
  match d with North => South | South => North | East => West | West => East end.

Definition wall (d : side) (c : Maze.Cell) : bool :=
  match d with
  | North => Maze.wN c | South => Maze.wS c | East => Maze.wE c | West => Maze.wW c
  end.





(** The number of passages, counted once each on their west and north
    ends, and the number of cells. *)
Definition count_passages (m : Maze.t) : nat :=
  length (List.filter (fun c => negb (Maze.wE c)) (Maze.grid m))
  + length (List.filter (fun c => negb (Maze.wS c)) (Maze.grid m)).

Definition count_unvisited (m : Maze.t) : nat :=
  length (List.filter (fun c => negb (Maze.visited c)) (Maze.grid m)).


(** The flood fill of the specification, as a program: the cells reached
    from [todo] over open passages, in the order they are found. *)
Definition passageb (m : Maze.t) (p : Z * Z) (d : side) : bool :=
  bool_decide (in_grid m p) && bool_decide (in_grid m (move d p))
  && negb (wall d (cell_at m p)) && negb (wall (opposite d) (cell_at m (move d p))).

Fixpoint flood_fill (fuel : nat) (m : Maze.t) (todo seen : list (Z * Z)) : list (Z * Z) :=
  match fuel, todo with
  | S fuel', p :: rest =>
    let next := List.filter (fun q => negb (bool_decide (q ∈ seen)))
                  (map (fun d => move d p)
                       (List.filter (passageb m p) [North; South; East; West])) in
    flood_fill fuel' m (rest ++ next) (seen ++ next)
  | _, _ => seen
  end.

Definition flood_count (m : Maze.t) : nat :=
  length (flood_fill (2 * length (Maze.grid m)) m [(0, 0)] [(0, 0)]).

(** ** Vocabulary of the carving loop *)

#[global] Instance side_eq_dec : EqDecision side.
Proof. solve_decision. Defined.

Definition clear_wall (d : side) : Maze.Cell -> Maze.Cell :=
  match d with
  | North => Maze.set_wN false | South => Maze.set_wS false
  | East => Maze.set_wE false | West => Maze.set_wW false
  end.

(** One carving step of the loop, from [p] to its neighbour on side [d]. *)
Definition push (m : Maze.t) (p : Z * Z) (d : side) : Maze.t :=
  let n := move d p in
  Maze.set_at (Maze.carve m p.1 p.2 n.1 n.2) n.1 n.2 (Maze.set_visited true).

Definition b2n (b : bool) : nat := if b then 1%nat else 0%nat.

Definition fresh (m : Maze.t) (p : Z * Z) : Prop :=
  Maze.visited (cell_at m p) = false.


(** ** Sample generators

    Two implementations of the [std::srand] / [std::rand] interface, used
    to run the model: the portable generator given as an example in the C
    standard, and a counter, whose draws are easy to follow by hand. *)

Definition lcg_srand (seed : Z) (_ : Z) : Z := seed.

Definition lcg_rand (next : Z) : Z * Z :=
  let next' := (next * 1103515245 + 12345) mod 2 ^ 64 in
  ((next' / 65536) mod 32768, next').

Definition counter_srand (seed : Z) (_ : Z) : Z := seed.

Definition counter_rand (next : Z) : Z * Z := (next, next + 1).

(** The wall flags of the cells of a generated maze. *)
Definition wall_flags {rng : Type} (r : option (Maze.t * rng))
  : option (list (bool * bool * bool * bool)) :=
  match r with
  | Some (m, _) =>
    Some (map (fun c => (Maze.wN c, Maze.wS c, Maze.wE c, Maze.wW c)) (Maze.grid m))
  | None => None
  end.

(** ** Vocabulary of the ball properties *)

Local Open Scope Q_scope.

(** The extent of the maze in physical units. *)
Definition mazeWidthUnits (m : Maze.t) : Q := inject_Z (Maze.w m) * Maze.cellW m.
Definition mazeHeightUnits (m : Maze.t) : Q := inject_Z (Maze.h m) * Maze.cellH m.

(** The position lies in
    [[radius, mazeWidthUnits - radius] x [radius, mazeHeightUnits - radius]]. *)
Definition within_bounds (m : Maze.t) (b : Ball.t) : Prop :=
  (Ball.radius b <= X (Ball.pos b) /\ X (Ball.pos b) <= mazeWidthUnits m - Ball.radius b) /\
  (Ball.radius b <= Y (Ball.pos b) /\ Y (Ball.pos b) <= mazeHeightUnits m - Ball.radius b).


(** The cells are not degenerate and the ball fits in one of them. *)
Definition fits_in_cell (m : Maze.t) (b : Ball.t) : Prop :=
  0 < Ball.radius b /\
  2 * Ball.radius b <= Maze.cellW m /\ 2 * Ball.radius b <= Maze.cellH m.

(** A sequence of calls to [update], each with its own [dt] and [rvec]. *)
Definition run (Rodrigues : Vec3 -> Mat3) (m : Maze.t)
    (inputs : list (Q * Vec3)) (b : Ball.t) : Ball.t :=
  fold_left (fun b i => Ball.update Rodrigues i.1 i.2 m b) inputs b.



(** Equality of vectors and matrices, entry by entry. *)
Definition Vec3_eq (a b : Vec3) : Prop := c0 a == c0 b /\ c1 a == c1 b /\ c2 a == c2 b.

Definition Mat3_eq (A B : Mat3) : Prop :=
  Vec3_eq (row0 A) (row0 B) /\ Vec3_eq (row1 A) (row1 B) /\ Vec3_eq (row2 A) (row2 B).

Definition Vec3_eqb (a b : Vec3) : bool :=
  Qeq_bool (c0 a) (c0 b) && Qeq_bool (c1 a) (c1 b) && Qeq_bool (c2 a) (c2 b).

(** A rotation matrix is orthogonal. *)
Definition orthogonal (R : Mat3) : Prop := Mat3_eq (mul (transpose R) R) eye.

(** The operations the frame loop applies to the ball. *)
Inductive ball_op : Type :=
  | OpUpdate (dt : Q) (rvec : Vec3) (m : Maze.t)
  | OpSetFlatReference (rvec : Vec3)
  | OpReset (m : Maze.t)
  | OpSetVel (v : vec2).

Definition is_setFlatReference (o : ball_op) : bool :=
  match o with OpSetFlatReference _ => true | _ => false end.

Definition apply_op (Rodrigues : Vec3 -> Mat3) (b : Ball.t) (o : ball_op) : Ball.t :=
  match o with
  | OpUpdate dt rvec m => Ball.update Rodrigues dt rvec m b
  | OpSetFlatReference rvec => Ball.setFlatReference Rodrigues rvec b
  | OpReset m => Ball.reset m b
  | OpSetVel v => Ball.with_vel v b
  end.

Definition apply_ops (Rodrigues : Vec3 -> Mat3) (ops : list ball_op) (b : Ball.t) : Ball.t :=
  fold_left (apply_op Rodrigues) ops b.

(** The part of one iteration of the frame loop of [main.cpp] that touches
    the ball: [poseOk] is the result of the board detection, [keyR] tells
    whether the reset key is down, [rvec] is the smoothed rotation. *)
Record loop_state : Type := mkLoop { loop_hasPose : bool; loop_ball : Ball.t }.

Definition frame (Rodrigues : Vec3 -> Mat3) (poseOk keyR : bool) (dt : Q) (rvec : Vec3)
    (m : Maze.t) (st : loop_state) : loop_state :=
  let hasPose := if poseOk then true else loop_hasPose st in
  let b := loop_ball st in
  let b := if poseOk && negb (Ball.hasFlatRef b)
           then Ball.setFlatReference Rodrigues rvec b else b in
  if hasPose then
    let b := if keyR
             then Ball.with_vel (mkvec2 0 0) (Ball.setFlatReference Rodrigues rvec b)
             else b in
    mkLoop hasPose (Ball.update Rodrigues dt rvec m b)
  else mkLoop hasPose b.

(** In the frame loop a pose has been seen only if a reference is latched. *)
Definition loop_latched (st : loop_state) : Prop :=
  loop_hasPose st = true -> Ball.hasFlatRef (loop_ball st) = true.

(** A rational stand-in for [cv::Rodrigues], used to run the model: the
    rotation of axis [a] and angle [2 * atan |a|] (the vector is read as
    Rodrigues parameters), whose matrix is rational and orthogonal. *)
Definition Rodrigues_rational (a : Vec3) : Mat3 :=
  let x := c0 a in
  let y := c1 a in
  let z := c2 a in
  let n := 1 + x * x + y * y + z * z in
  mkMat3
    (mkVec3 ((1 + x * x - y * y - z * z) / n) (2 * (x * y - z) / n) (2 * (x * z + y) / n))
    (mkVec3 (2 * (x * y + z) / n) ((1 - x * x + y * y - z * z) / n) (2 * (y * z - x) / n))
    (mkVec3 (2 * (x * z - y) / n) (2 * (y * z + x) / n) ((1 - x * x - y * y + z * z) / n)).

(** The maze and the ball of [main.cpp]: 8 x 6 cells on an A4 sheet and a
    ball of radius 1 cm placed by [reset]. *)
Definition main_maze : Maze.t := Maze.create 8 6 0.297 0.210 0.0035.

Definition main_ball : Ball.t := Ball.reset main_maze (Ball.create 0.010).

(** The collision response along one axis, in terms of the two wall flags,
    the two wall planes, the radius, the tentative coordinate and the
    velocity on the axis. *)
Definition collide_axis (wlo whi : bool) (lo hi r n v : Q) : Q * Q :=
  if wlo && Qltb (n - r) lo then (lo + r, - v * Ball.bounce)
  else if whi && Qltb hi (n + r) then (hi - r, - v * Ball.bounce)
  else (n, v).

(** The scene of the counterexample to wall impermeability: the maze of
    [main.cpp] before carving, with the one passage between the cells
    (0,0) and (1,0) opened; the ball at the centre of the cell (1,0), moving
    at 4 m/s toward the east wall of that cell, the board held so that
    gravity pulls east with full strength. *)
Definition tunnel_maze : Maze.t := Maze.carve main_maze 0 0 1 0.

Definition tunnel_ball : Ball.t :=
  Ball.mk (mkvec2 (1.5 * Maze.cellW tunnel_maze) (0.5 * Maze.cellH tunnel_maze))
          (mkvec2 4 0) 0.010 true eye 9.81 1 0.03.

Definition tilt_east : Vec3 := mkVec3 0 (-1) 0.

(** ** Vocabulary of the smoother properties *)

(** A state whose validity flag is set holds a rotation and a translation;
    every state reached from [create] through [smooth] is such a state. *)
Definition pose_stored (s : PoseSmoother.t) : Prop :=
  PoseSmoother.hasPose s = true ->
  exists rp tp, PoseSmoother.rPrev s = Some rp /\ PoseSmoother.tPrev s = Some tp.

(** Equality of quaternions, component by component. *)
Definition quat_eq (a b : quat) : Prop :=
  qw a == qw b /\ qx a == qx b /\ qy a == qy b /\ qz a == qz b.

(** Rational stand-ins for the conversions of OpenCV and GLM, used to run
    the model; they go with [Rodrigues_rational]. A rotation matrix is
    turned into the quaternion [(1 + tr, R21 - R12, R02 - R20, R10 - R01)],
    which is not normalised; a quaternion is turned into its rotation
    matrix, divided by the squared norm; a matrix is turned back into its
    Rodrigues parameters; and the blend is linear, as the one [glm::slerp]
    falls back to for close quaternions. *)
Definition sample_RodriguesInv (M : Mat3) : Vec3 :=
  let t := 1 + c0 (row0 M) + c1 (row1 M) + c2 (row2 M) in
  mkVec3 ((c1 (row2 M) - c2 (row1 M)) / t) ((c2 (row0 M) - c0 (row2 M)) / t)
         ((c0 (row1 M) - c1 (row0 M)) / t).

Definition sample_quat_cast (m : glm_mat3) : quat :=
  mkquat (1 + c0 (gcol0 m) + c1 (gcol1 m) + c2 (gcol2 m))
         (c2 (gcol1 m) - c1 (gcol2 m)) (c0 (gcol2 m) - c2 (gcol0 m))
         (c1 (gcol0 m) - c0 (gcol1 m)).

Definition sample_mat3_cast (q : quat) : glm_mat3 :=
  let w := qw q in
  let x := qx q in
  let y := qy q in
  let z := qz q in
  let n := w * w + x * x + y * y + z * z in
  mkglm
    (mkVec3 ((w * w + x * x - y * y - z * z) / n) (2 * (x * y + w * z) / n)
            (2 * (x * z - w * y) / n))
    (mkVec3 (2 * (x * y - w * z) / n) ((w * w - x * x + y * y - z * z) / n)
            (2 * (y * z + w * x) / n))
    (mkVec3 (2 * (x * z + w * y) / n) (2 * (y * z - w * x) / n)
            ((w * w - x * x - y * y + z * z) / n)).

Definition sample_slerp (p q : quat) (a : Q) : quat :=
  mkquat ((1 - a) * qw p + a * qw q) ((1 - a) * qx p + a * qx q)
         ((1 - a) * qy p + a * qy q) ((1 - a) * qz p + a * qz q).

(** The smoother of [main.cpp], run with the stand-ins. *)
Definition sample_smooth (s : PoseSmoother.t) (rvec tvec : PoseSmoother.cvMat)
  : option (PoseSmoother.t * PoseSmoother.cvMat * PoseSmoother.cvMat) :=
  PoseSmoother.smooth Rodrigues_rational sample_RodriguesInv sample_quat_cast
    sample_mat3_cast sample_slerp s rvec tvec.

Definition main_smoother : PoseSmoother.t :=
  PoseSmoother.mk false None None 0.25.

(** ** The frame loop on raw time steps *)

Local Open Scope Q_scope.

(** [std::min(a, b)] is [b < a ? b : a] and [std::max(a, b)] is
    [a < b ? b : a]. *)
Definition std_min (a b : Q) : Q := if Qltb b a then b else a.
Definition std_max (a b : Q) : Q := if Qltb a b then b else a.

(** [dt = std::min(dt, 1.0f/20.0f); dt = std::max(dt, 1.0f/500.0f);] at the
    head of the frame loop of [main.cpp]. *)
Definition clamp_dt (dt : Q) : Q := std_max (std_min dt (1 / 20)) (1 / 500).

(** The frame loop over a sequence of frames, each with the result of the
    detection, the state of the reset key, the time elapsed since the
    frame before and the rotation vector. *)
Definition main_loop (Rodrigues : Vec3 -> Mat3) (m : Maze.t)
    (inputs : list (bool * bool * Q * Vec3)) (st : loop_state) : loop_state :=
  fold_left (fun st '(poseOk, keyR, dt, rvec) =>
               frame Rodrigues poseOk keyR (clamp_dt dt) rvec m st) inputs st.

(** ** Further vocabulary of the ball properties *)

(** Both components of the velocity are at most [V] in absolute value. *)
Definition speed_le (V : Q) (b : Ball.t) : Prop :=
  Qabs (X (Ball.vel b)) <= V /\ Qabs (Y (Ball.vel b)) <= V.

(** The board is held so close to the reference attitude [R0] that both
    planar components of gravity fall inside the deadzone. *)
Definition level (R0 R : Mat3) (dz : Q) : Prop :=
  Qabs (c0 (Ball.g_cur R0 R)) < dz /\ Qabs (c1 (Ball.g_cur R0 R)) < dz.


(** The ball lies between the four wall planes of the cell [(cx, cy)],
    touching them at most. *)
Definition held_in_cell (m : Maze.t) (cx cy : Z) (b : Ball.t) : Prop :=
  (inject_Z cx * Maze.cellW m + Ball.radius b <= X (Ball.pos b) /\
   X (Ball.pos b) <= inject_Z (cx + 1) * Maze.cellW m - Ball.radius b) /\
  (inject_Z cy * Maze.cellH m + Ball.radius b <= Y (Ball.pos b) /\
   Y (Ball.pos b) <= inject_Z (cy + 1) * Maze.cellH m - Ball.radius b).

(** The reference is a rotation and the settings are in their ranges. *)
Definition settings_ok (b : Ball.t) : Prop :=
  orthogonal (Ball.R0 b) /\ 0 <= Ball.deadzone b /\ Ball.deadzone b < 1 /\
  0 <= Ball.g b /\ 0 <= Ball.gain b.

(** ** Further vocabulary of the maze properties *)

(** From [m] to [m'] the dimensions are kept, no wall is raised and no
    mark is removed. *)
Definition only_opened (m m' : Maze.t) : Prop :=
  (Maze.w m' = Maze.w m /\ Maze.h m' = Maze.h m /\ Maze.cellW m' = Maze.cellW m /\
   Maze.cellH m' = Maze.cellH m /\ Maze.wallThick m' = Maze.wallThick m) /\
  forall p, in_grid m p ->
    (forall d, wall d (cell_at m' p) = true -> wall d (cell_at m p) = true) /\
    (Maze.visited (cell_at m p) = true -> Maze.visited (cell_at m' p) = true).

(** ** struct PtsSmoother *)

Local Open Scope Q_scope.

(** [cv::Point2f], with the product by a scalar and the sum. *)
Record Point2f : Type := mkPoint2f { ptx : Q; pty : Q }.

Definition pt_scale (p : Point2f) (a : Q) : Point2f := mkPoint2f (ptx p * a) (pty p * a).
Definition pt_add (p q : Point2f) : Point2f := mkPoint2f (ptx p + ptx q) (pty p + pty q).

Module PtsSmoother.

(** [std::array<cv::Point2f, 4>]. *)
Record quad : Type := mkquad { pt0 : Point2f; pt1 : Point2f; pt2 : Point2f; pt3 : Point2f }.

Record t : Type := mk { has : bool; prev : quad; alpha : Q }.

Definition create : t :=
  mk false (mkquad (mkPoint2f 0 0) (mkPoint2f 0 0) (mkPoint2f 0 0) (mkPoint2f 0 0)) 0.35.

(** [prev[i] * (1.0f - a) + pts[i] * a]. *)
Definition blend (a : Q) (p v : Point2f) : Point2f :=
  pt_add (pt_scale p (1 - a)) (pt_scale v a).

(** [apply(pts)]: the result is the new state and the vector, which is
    passed by reference. *)
Definition apply (s : t) (pts : list Point2f) : t * list Point2f :=
  match pts with
  | [p0; p1; p2; p3] =>
    if negb (has s) then (mk true (mkquad p0 p1 p2 p3) (alpha s), pts)
    else
      let a := alpha s in
      let n0 := blend a (pt0 (prev s)) p0 in
      let n1 := blend a (pt1 (prev s)) p1 in
      let n2 := blend a (pt2 (prev s)) p2 in
      let n3 := blend a (pt3 (prev s)) p3 in
      (mk true (mkquad n0 n1 n2 n3) a, [n0; n1; n2; n3])
  | _ => (s, pts)
  end.

End PtsSmoother.

(** ** Vocabulary of the further smoother properties *)

(** [smooth] called once per frame on a sequence of detected poses. *)
Fixpoint smooth_frames (Rodrigues : Vec3 -> Mat3) (RodriguesInv : Mat3 -> Vec3)
    (quat_cast : glm_mat3 -> quat) (mat3_cast : quat -> glm_mat3)
    (slerp : quat -> quat -> Q -> quat)
    (s : PoseSmoother.t) (frames : list (Vec3 * Vec3)) : option PoseSmoother.t :=
  match frames with
  | [] => Some s
  | (r, tv) :: rest =>
    match PoseSmoother.smooth Rodrigues RodriguesInv quat_cast mat3_cast slerp s
            (Some r) (Some tv) with
    | Some (s', _, _) =>
      smooth_frames Rodrigues RodriguesInv quat_cast mat3_cast slerp s' rest
    | None => None
    end
  end.

(** [apply] called on a sequence of point vectors; the result is the last
    state and the vectors as [apply] left them. *)
Fixpoint apply_frames (s : PtsSmoother.t) (frames : list (list Point2f))
  : PtsSmoother.t * list (list Point2f) :=
  match frames with
  | [] => (s, [])
  | pts :: rest =>
    let '(s', pts') := PtsSmoother.apply s pts in
    let '(s'', out) := apply_frames s' rest in
    (s'', pts' :: out)
  end.

(** The points of a quadruple, in order. *)
Definition quad_points (q : PtsSmoother.quad) : list Point2f :=
  [PtsSmoother.pt0 q; PtsSmoother.pt1 q; PtsSmoother.pt2 q; PtsSmoother.pt3 q].

(** Two points agree up to the equality of rationals, and so do two lists
    of points. *)
Definition Point2f_eq (p q : Point2f) : Prop := ptx p == ptx q /\ pty p == pty q.

(** [e] is [k] times [d], coordinate by coordinate. *)
Definition Vec3_scaled (k : Q) (d e : Vec3) : Prop :=
  c0 e == k * c0 d /\ c1 e == k * c1 d /\ c2 e == k * c2 d.

Definition Vec3_sub (a b : Vec3) : Vec3 := mkVec3 (c0 a - c0 b) (c1 a - c1 b) (c2 a - c2 b).

Definition Point2f_sub (p q : Point2f) : Point2f := mkPoint2f (ptx p - ptx q) (pty p - pty q).

Definition Point2f_scaled (k : Q) (d e : Point2f) : Prop :=
  ptx e == k * ptx d /\ pty e == k * pty d.

(** ** ARMatrices: projection and model matrices *)

(** A column of a [glm::mat4], a [glm::vec4], or a row of a 4x4 [cv::Mat]. *)
Record Vec4 : Type := mkVec4 { v4x : Q; v4y : Q; v4z : Q; v4w : Q }.

(** [glm::mat4], stored by columns: [m[j]] is the column [j] and [m[j][i]]
    its entry in the row [i]. *)
Record glm_mat4 : Type := mkglm4
  { g4col0 : Vec4; g4col1 : Vec4; g4col2 : Vec4; g4col3 : Vec4 }.

(** A 4x4 [cv::Mat], stored by rows. *)
Record Mat4 : Type := mkMat4
  { m4row0 : Vec4; m4row1 : Vec4; m4row2 : Vec4; m4row3 : Vec4 }.

(** [glm::mat4(1.0f)]. *)
Definition glm_identity : glm_mat4 :=
  mkglm4 (mkVec4 1 0 0 0) (mkVec4 0 1 0 0) (mkVec4 0 0 1 0) (mkVec4 0 0 0 1).

(** The products [M * v] and [A * B] of GLM: the columns of the left factor
    are scaled by the coordinates of the vector and added up. *)
Definition vec4_scale (v : Vec4) (a : Q) : Vec4 :=
  mkVec4 (v4x v * a) (v4y v * a) (v4z v * a) (v4w v * a).

Definition vec4_add (u v : Vec4) : Vec4 :=
  mkVec4 (v4x u + v4x v) (v4y u + v4y v) (v4z u + v4z v) (v4w u + v4w v).

Definition glm_mul_vec (M : glm_mat4) (v : Vec4) : Vec4 :=
  vec4_add (vec4_add (vec4_scale (g4col0 M) (v4x v)) (vec4_scale (g4col1 M) (v4y v)))
           (vec4_add (vec4_scale (g4col2 M) (v4z v)) (vec4_scale (g4col3 M) (v4w v))).

Definition glm_mul (A B : glm_mat4) : glm_mat4 :=
  mkglm4 (glm_mul_vec A (g4col0 B)) (glm_mul_vec A (g4col1 B))
         (glm_mul_vec A (g4col2 B)) (glm_mul_vec A (g4col3 B)).

(** [projectionFromCV(K, w, h, n, f)]: the matrix starts from
    [glm::mat4(0.0f)] and seven entries [P[col][row]] are assigned. *)
Definition projectionFromCV (K : Mat3) (w h n f : Q) : glm_mat4 :=
  let fx := c0 (row0 K) in
  let fy := c1 (row1 K) in
  let cx := c2 (row0 K) in
  let cy := c2 (row1 K) in
  mkglm4 (mkVec4 (2 * fx / w) 0 0 0)
         (mkVec4 0 (2 * fy / h) 0 0)
         (mkVec4 (1 - 2 * cx / w) (2 * cy / h - 1) (- (f + n) / (f - n)) (-1))
         (mkVec4 0 0 (-2 * f * n / (f - n)) 0).

(** The product and the transpose of 4x4 [cv::Mat]s. *)
Definition dot4 (a b : Vec4) : Q :=
  v4x a * v4x b + v4y a * v4y b + v4z a * v4z b + v4w a * v4w b.

Definition col4 (j : Vec4 -> Q) (M : Mat4) : Vec4 :=
  mkVec4 (j (m4row0 M)) (j (m4row1 M)) (j (m4row2 M)) (j (m4row3 M)).

Definition transpose4 (M : Mat4) : Mat4 :=
  mkMat4 (col4 v4x M) (col4 v4y M) (col4 v4z M) (col4 v4w M).

Definition mul4 (A B : Mat4) : Mat4 :=
  let rowB (a : Vec4) :=
    mkVec4 (dot4 a (col4 v4x B)) (dot4 a (col4 v4y B))
           (dot4 a (col4 v4z B)) (dot4 a (col4 v4w B)) in
  mkMat4 (rowB (m4row0 A)) (rowB (m4row1 A)) (rowB (m4row2 A)) (rowB (m4row3 A)).

(** [glm::make_mat4(ptr)] on the data of a 4x4 [cv::Mat]: the sixteen
    floats, laid out row after row, are read column after column. *)
Definition make_mat4 (M : Mat4) : glm_mat4 :=
  mkglm4 (m4row0 M) (m4row1 M) (m4row2 M) (m4row3 M).

(** The matrix [cvToGl] of [modelFromRvecTvec_OpenCVtoGL]. *)
Definition cvToGl : Mat4 :=
  mkMat4 (mkVec4 1 0 0 0) (mkVec4 0 (-1) 0 0) (mkVec4 0 0 (-1) 0) (mkVec4 0 0 0 1).

(** [M = eye(4, 4)] with [R] copied to its upper left block and [tvec] to
    the top of its last column. *)
Definition Rt (R : Mat3) (t : Vec3) : Mat4 :=
  mkMat4 (mkVec4 (c0 (row0 R)) (c1 (row0 R)) (c2 (row0 R)) (c0 t))
         (mkVec4 (c0 (row1 R)) (c1 (row1 R)) (c2 (row1 R)) (c1 t))
         (mkVec4 (c0 (row2 R)) (c1 (row2 R)) (c2 (row2 R)) (c2 t))
         (mkVec4 0 0 0 1).

(** [modelFromRvecTvec_OpenCVtoGL(rvec, tvec)]. *)
Definition modelFromRvecTvec_OpenCVtoGL (Rodrigues : Vec3 -> Mat3)
    (rvec tvec : PoseSmoother.cvMat) : glm_mat4 :=
  match rvec, tvec with
  | Some r, Some t =>
    let R := Rodrigues r in
    let M := Rt R t in
    let Mgl := mul4 cvToGl M in
    let MT := transpose4 Mgl in
    make_mat4 MT
  | _, _ => glm_identity
  end.

(** The intrinsics of [main.cpp], adapted when the frames do not have the
    size the camera was calibrated at; the sizes are [int]s. *)
Definition rescale_intrinsics (K : Mat3) (cols rows calibW calibH : Z) : Mat3 :=
  if negb ((cols =? calibW)%Z && (rows =? calibH)%Z) then
    let sx := inject_Z cols / inject_Z calibW in
    let sy := inject_Z rows / inject_Z calibH in
    mkMat3 (mkVec3 (c0 (row0 K) * sx) (c1 (row0 K)) (c2 (row0 K) * sx))
           (mkVec3 (c0 (row1 K)) (c1 (row1 K) * sy) (c2 (row1 K) * sy))
           (row2 K)
  else K.

(** ** Vocabulary of the projection properties *)

(** The pixel at which a camera of intrinsics [K], without distortion,
    sees the point [p] of its own frame (x right, y down, z forward). *)
Definition pixel_u (K : Mat3) (p : Vec3) : Q := c0 (row0 K) * c0 p / c2 p + c2 (row0 K).
Definition pixel_v (K : Mat3) (p : Vec3) : Q := c1 (row1 K) * c1 p / c2 p + c2 (row1 K).

(** The point of the camera frame at which the board point [p] lies under
    the pose [(R, t)]. *)
Definition camera_point (R : Mat3) (t p : Vec3) : Vec3 :=
  let q := mul_vec R p in
  mkVec3 (c0 q + c0 t) (c1 q + c1 t) (c2 q + c2 t).

(** The same point in the frame of OpenGL (y up, z backward), with the
    homogeneous coordinate 1. *)
Definition gl_point (p : Vec3) : Vec4 := mkVec4 (c0 p) (- c1 p) (- c2 p) 1.

Definition homogeneous (p : Vec3) : Vec4 := mkVec4 (c0 p) (c1 p) (c2 p) 1.

Definition Vec4_eq (a b : Vec4) : Prop :=
  v4x a == v4x b /\ v4y a == v4y b /\ v4z a == v4z b /\ v4w a == v4w b.

Definition glm_mat4_eq (A B : glm_mat4) : Prop :=
  Vec4_eq (g4col0 A) (g4col0 B) /\ Vec4_eq (g4col1 A) (g4col1 B) /\
  Vec4_eq (g4col2 A) (g4col2 B) /\ Vec4_eq (g4col3 A) (g4col3 B).

(** ** Geometries: the solid mesh of the maze *)

(** The vertex buffer [V] (three floats per vertex) and the index buffer
    [I] ([uint32_t]) that the mesh builders fill. *)
Definition buffers : Type := list Q * list Z.

(** The eight corners of a box and its twelve triangles. *)
Definition box_vertices (x0 y0 z0 x1 y1 z1 : Q) : list Q :=
  [x0; y0; z0;  x1; y0; z0;  x1; y1; z0;  x0; y1; z0;
   x0; y0; z1;  x1; y0; z1;  x1; y1; z1;  x0; y1; z1].

Definition box_triangles : list Z :=
  [0; 1; 2;  0; 2; 3;  4; 6; 5;  4; 7; 6;  0; 3; 7;  0; 7; 4;
   1; 5; 6;  1; 6; 2;  0; 4; 5;  0; 5; 1;  3; 2; 6;  3; 6; 7]%Z.

(** [appendBoxSolid]: [base] is [(uint32_t)(V.size() / 3)], and every
    [base + a] is a sum of [uint32_t]. *)
Definition appendBoxSolid (x0 y0 z0 x1 y1 z1 : Q) (VI : buffers) : buffers :=
  let base := ((Z.of_nat (length VI.1) / 3) mod 2 ^ 32)%Z in
  (VI.1 ++ box_vertices x0 y0 z0 x1 y1 z1,
   VI.2 ++ map (fun a => ((base + a) mod 2 ^ 32)%Z) box_triangles).

(** The body of the two loops of [createMazeWallsSolidFromMaze]. *)
Definition wall_boxes (m : Maze.t) (z0 z1 : Q) (gy gx : Z) (VI : buffers) : buffers :=
  let c := Maze.at_ m gx gy in
  let wallT := Maze.wallThick m in
  let x0 := inject_Z gx * Maze.cellW m in
  let y0 := inject_Z gy * Maze.cellH m in
  let x1 := x0 + Maze.cellW m in
  let y1 := y0 + Maze.cellH m in
  let VI := if Maze.wN c then appendBoxSolid x0 y0 z0 x1 (y0 + wallT) z1 VI else VI in
  let VI := if Maze.wW c then appendBoxSolid x0 y0 z0 (x0 + wallT) y1 z1 VI else VI in
  let VI := if (gx =? Maze.w m - 1)%Z && Maze.wE c
            then appendBoxSolid (x1 - wallT) y0 z0 x1 y1 z1 VI else VI in
  let VI := if (gy =? Maze.h m - 1)%Z && Maze.wS c
            then appendBoxSolid x0 (y1 - wallT) z0 x1 y1 z1 VI else VI in
  VI.

(** [createMazeWallsSolidFromMaze(maze, wallH)], up to the upload of the
    two buffers to OpenGL; [count] is the length of the index buffer. *)
Definition createMazeWallsSolidFromMaze (m : Maze.t) (wallH : Q) : buffers :=
  let z0 := 0 in
  let z1 := wallH in
  let wallT := Maze.wallThick m in
  let mazeW := inject_Z (Maze.w m) * Maze.cellW m in
  let mazeH := inject_Z (Maze.h m) * Maze.cellH m in
  let VI := appendBoxSolid 0 0 z0 mazeW wallT z1 ([], []) in
  let VI := appendBoxSolid 0 (mazeH - wallT) z0 mazeW mazeH z1 VI in
  let VI := appendBoxSolid 0 0 z0 wallT mazeH z1 VI in
  let VI := appendBoxSolid (mazeW - wallT) 0 z0 mazeW mazeH z1 VI in
  fold_left (fun VI gy =>
               fold_left (fun VI gx => wall_boxes m z0 z1 gy gx VI) (seqZ 0 (Maze.w m)) VI)
            (seqZ 0 (Maze.h m)) VI.

(** The boxes drawn for a cell: its north and west walls, its east wall
    in the last column and its south wall in the last row. *)
Definition cell_boxes (m : Maze.t) (gy gx : Z) : nat :=
  let c := Maze.at_ m gx gy in
  (b2n (Maze.wN c) + b2n (Maze.wW c) + b2n ((gx =? Maze.w m - 1)%Z && Maze.wE c)
   + b2n ((gy =? Maze.h m - 1)%Z && Maze.wS c))%nat.

(** The boxes of the whole mesh, the four of the border included. *)
Definition maze_boxes (m : Maze.t) : nat :=
  (4 + sum_list (map (fun gy => sum_list (map (cell_boxes m gy) (seqZ 0 (Maze.w m))))
                     (seqZ 0 (Maze.h m))))%nat.

(** A mesh of [k] boxes: 24 floats and 36 indices a box, and, unless the
    count of vertices overflows [uint32_t], indices that all point to
    vertices of the buffer. *)
Definition mesh_ok (k : nat) (VI : buffers) : Prop :=
  length VI.1 = (24 * k)%nat /\ length VI.2 = (36 * k)%nat /\
  ((8 * Z.of_nat k <= 2 ^ 32)%Z ->
   Forall (fun i => (0 <= i < Z.of_nat (length VI.1) / 3)%Z) VI.2).

(** ** SceneObjects: the faces of an OBJ file *)

(** [fixIndex(idx, n)]: an OBJ index counts from 1, or back from the end
    when it is negative; 0 is no index. *)
Definition fixIndex (idx n : Z) : Z :=
  if (idx >? 0)%Z then (idx - 1)%Z else if (idx <? 0)%Z then (n + idx)%Z else (-1)%Z.

(** [struct VKey] and its [operator==]. *)
Record VKey : Type := mkVKey { vi : Z; ti : Z; ni : Z }.

Definition VKey_eqb (a b : VKey) : bool :=
  (vi a =? vi b)%Z && (ti a =? ti b)%Z && (ni a =? ni b)%Z.

(** The state of [loadOBJMesh] while it reads the file: the positions
    [V] read so far, the two buffers, and the map [dedup] from the keys to
    the indices given out, as the list of its entries. *)
Record obj_state : Type := mkObj
  { objV : list Vec3; outPos : list Q; outIdx : list Z; dedup : list (VKey * Z) }.

Definition obj_init : obj_state := mkObj [] [] [] [].

(** [dedup.find(k)]. *)
Definition dedup_find (k : VKey) (d : list (VKey * Z)) : option Z :=
  match List.find (fun e => VKey_eqb k e.1) d with
  | Some e => Some e.2
  | None => None
  end.

(** The key made from the triplet [(vi, ti, ni)] of a face, kept if its
    position index is one of [V]. *)
Definition face_key (n : Z) (tok : Z * Z * Z) : option VKey :=
  let k := mkVKey (fixIndex tok.1.1 n)
                  (if (tok.1.2 =? 0)%Z then -1 else 0)%Z
                  (if (tok.2 =? 0)%Z then -1 else 0)%Z in
  if (vi k <? 0)%Z || (vi k >=? n)%Z then None else Some k.

Definition face_keys (n : Z) (toks : list (Z * Z * Z)) : list VKey :=
  omap (face_key n) toks.

(** The lambda [getOrCreate]: the index of a key, with a new vertex for a
    key not seen before; [id] is [(uint32_t)(outPos.size() / 3)]. *)
Definition getOrCreate (st : obj_state) (k : VKey) : obj_state * Z :=
  match dedup_find k (dedup st) with
  | Some id => (st, id)
  | None =>
    let p := default (mkVec3 0 0 0) (objV st !! Z.to_nat (vi k)) in
    let id := ((Z.of_nat (length (outPos st)) / 3) mod 2 ^ 32)%Z in
    (mkObj (objV st) (outPos st ++ [c0 p; c1 p; c2 p]) (outIdx st) (dedup st ++ [(k, id)]), id)
  end.

(** The fan of triangles [(face[0], face[i], face[i + 1])]; [rest] is the
    face from [face[i]] on. *)
Fixpoint fan (st : obj_state) (i0 : Z) (rest : list VKey) : obj_state :=
  match rest with
  | a :: ((b :: _) as tl) =>
    let '(st1, i1) := getOrCreate st a in
    let '(st2, i2) := getOrCreate st1 b in
    fan (mkObj (objV st2) (outPos st2) (outIdx st2 ++ [i0; i1; i2]) (dedup st2)) i0 tl
  | _ => st
  end.

(** A line of the file, once split into numbers: a position, a face with
    its triplets, or anything else. *)
Inductive obj_line : Type :=
  | LineV (p : Vec3)
  | LineF (toks : list (Z * Z * Z))
  | LineOther.

Definition obj_step (st : obj_state) (l : obj_line) : obj_state :=
  match l with
  | LineV p => mkObj (objV st ++ [p]) (outPos st) (outIdx st) (dedup st)
  | LineF toks =>
    let face := face_keys (Z.of_nat (length (objV st))) toks in
    match face with
    | k0 :: rest =>
      if (length face <? 3)%nat then st
      else let '(st1, i0) := getOrCreate st k0 in fan st1 i0 rest
    | [] => st
    end
  | LineOther => st
  end.

Definition obj_load (lines : list obj_line) : obj_state := fold_left obj_step lines obj_init.

(** The buffers are consistent: three floats a vertex, three indices a
    triangle and, unless the count of vertices overflows [uint32_t], indices
    in the map and in the index buffer that all point to vertices. *)
Definition obj_ok (st : obj_state) : Prop :=
  (exists nv : nat, length (outPos st) = (3 * nv)%nat) /\
  (exists nt : nat, length (outIdx st) = (3 * nt)%nat) /\
  let nv := (Z.of_nat (length (outPos st)) / 3)%Z in
  ((nv <= 2 ^ 32)%Z ->
   Forall (fun i => (0 <= i < nv)%Z) (outIdx st) /\
   Forall (fun e => (0 <= e.2 < nv)%Z) (dedup st)).

(** * Properties of the maze *)

Local Open Scope Z_scope.

Section MazeFacts.

Implicit Types (m : Maze.t) (p q : Z * Z) (f : Maze.Cell -> Maze.Cell).

Lemma index_in_grid m p :
  well_formed m -> in_grid m p ->
  Maze.index m p.1 p.2 = Z.to_nat (p.2 * Maze.w m + p.1) /\
  (Maze.index m p.1 p.2 < length (Maze.grid m))%nat.
Proof.
  intros (Hw & Hh & Hlen) [Hx Hy].
  assert (Hi : Maze.index m p.1 p.2 = Z.to_nat (p.2 * Maze.w m + p.1)).
  { unfold Maze.index, Maze.clamp_x, Maze.clamp_y.
    repeat match goal with
           | |- context [?a <? ?b] => destruct (Z.ltb_spec a b); try lia
           | |- context [?a >=? ?b] => destruct (Z.geb_spec a b); try lia
           end. }
  split; [exact Hi|]. rewrite Hi, Hlen. nia.
Qed.

Lemma index_inj m p q :
  well_formed m -> in_grid m p -> in_grid m q ->
  Maze.index m p.1 p.2 = Maze.index m q.1 q.2 -> p = q.
Proof.
  intros Hwf Hp Hq.
  destruct (index_in_grid m p Hwf Hp) as [-> _].
  destruct (index_in_grid m q Hwf Hq) as [-> _].
  destruct p as [x y], q as [x' y'], Hp as [Hx Hy], Hq as [Hx' Hy']; simpl in *.
  intros E. apply Z2Nat.inj in E; [|nia|nia].
  assert (y = y') by nia. subst. f_equal. lia.
Qed.

Lemma set_at_index m x y f x' y' :
  Maze.index (Maze.set_at m x y f) x' y' = Maze.index m x' y'.
Proof. reflexivity. Qed.

Lemma set_at_well_formed m x y f : well_formed m -> well_formed (Maze.set_at m x y f).
Proof.
  intros (Hw & Hh & Hlen). repeat split; simpl; try assumption.
  by rewrite length_alter.
Qed.

Lemma cell_at_set_same m p f :
  well_formed m -> in_grid m p ->
  cell_at (Maze.set_at m p.1 p.2 f) p = f (cell_at m p).
Proof.
  intros Hwf Hp. destruct (index_in_grid m p Hwf Hp) as [_ Hlt].
  unfold cell_at, Maze.at_. rewrite set_at_index. simpl.
  rewrite list_lookup_alter_eq.
  destruct (lookup_lt_is_Some_2 _ _ Hlt) as [c ->]. reflexivity.
Qed.

Lemma cell_at_set_other m p q f :
  well_formed m -> in_grid m p -> in_grid m q -> p <> q ->
  cell_at (Maze.set_at m p.1 p.2 f) q = cell_at m q.
Proof.
  intros Hwf Hp Hq Hne. unfold cell_at, Maze.at_. rewrite set_at_index. simpl.
  rewrite list_lookup_alter_ne; [reflexivity|].
  intros E. apply Hne. by apply (index_inj m).
Qed.

End MazeFacts.

Section MazeStep.

Implicit Types (m : Maze.t) (p q : Z * Z) (d : side) (f : Maze.Cell -> Maze.Cell).



Lemma move_neq d p : move d p <> p.
Proof. destruct p as [x y], d; simpl; intros [=]; lia. Qed.


Lemma wall_clear d d' c :
  wall d' (clear_wall d c) = if decide (d' = d) then false else wall d' c.
Proof. destruct d, d'; reflexivity. Qed.

Lemma wall_set_visited d c b : wall d (Maze.set_visited b c) = wall d c.
Proof. by destruct d. Qed.

Lemma visited_clear d c : Maze.visited (clear_wall d c) = Maze.visited c.
Proof. by destruct d. Qed.

Lemma carve_move m p d :
  Maze.carve m p.1 p.2 (move d p).1 (move d p).2 =
  Maze.set_at (Maze.set_at m p.1 p.2 (clear_wall d))
              (move d p).1 (move d p).2 (clear_wall (opposite d)).
Proof.
  destruct p as [x y]. unfold Maze.carve.
  destruct d; simpl;
    repeat match goal with
           | |- context [?a >? ?b] => destruct (Z.gtb_spec a b); try lia
           | |- context [?a <? ?b] => destruct (Z.ltb_spec a b); try lia
           end; reflexivity.
Qed.

Lemma push_w m p d : Maze.w (push m p d) = Maze.w m.
Proof. unfold push. rewrite carve_move. reflexivity. Qed.

Lemma push_h m p d : Maze.h (push m p d) = Maze.h m.
Proof. unfold push. rewrite carve_move. reflexivity. Qed.

Lemma push_in_grid m p d q : in_grid (push m p d) q <-> in_grid m q.
Proof. unfold in_grid. by rewrite push_w, push_h. Qed.

Lemma push_well_formed m p d : well_formed m -> well_formed (push m p d).
Proof.
  intros Hwf. unfold push. rewrite carve_move.
  by do 3 apply set_at_well_formed.
Qed.

(** The cells of the maze after a carving step. *)
Lemma push_cell m p d q :
  well_formed m -> in_grid m p -> in_grid m (move d p) -> in_grid m q ->
  cell_at (push m p d) q =
    if decide (q = move d p)
    then Maze.set_visited true (clear_wall (opposite d) (cell_at m q))
    else if decide (q = p) then clear_wall d (cell_at m q) else cell_at m q.
Proof.
  intros Hwf Hp Hn Hq. unfold push. rewrite carve_move.
  set (n := move d p) in *.
  set (m1 := Maze.set_at m p.1 p.2 (clear_wall d)).
  set (m2 := Maze.set_at m1 n.1 n.2 (clear_wall (opposite d))).
  assert (Hwf1 : well_formed m1) by by apply set_at_well_formed.
  assert (Hwf2 : well_formed m2) by by apply set_at_well_formed.
  assert (Hnp : n <> p) by apply move_neq.
  destruct (decide (q = n)) as [->|Hqn].
  - rewrite cell_at_set_same by done. f_equal.
    unfold m2. rewrite cell_at_set_same by done. f_equal.
    unfold m1. by rewrite cell_at_set_other.
  - rewrite cell_at_set_other by done.
    unfold m2. rewrite cell_at_set_other by done.
    unfold m1. destruct (decide (q = p)) as [->|Hqp].
    + by rewrite cell_at_set_same.
    + by rewrite cell_at_set_other.
Qed.

Lemma push_wall m p d q d' :
  well_formed m -> in_grid m p -> in_grid m (move d p) -> in_grid m q ->
  wall d' (cell_at (push m p d) q) =
    if decide ((q = p /\ d' = d) \/ (q = move d p /\ d' = opposite d))
    then false else wall d' (cell_at m q).
Proof.
  intros Hwf Hp Hn Hq. rewrite push_cell by done.
  pose proof (move_neq d p) as Hne.
  repeat case_decide; subst;
    rewrite ?wall_set_visited, ?wall_clear; repeat case_decide;
    try reflexivity; try tauto; try congruence; naive_solver.
Qed.

Lemma push_visited m p d q :
  well_formed m -> in_grid m p -> in_grid m (move d p) -> in_grid m q ->
  Maze.visited (cell_at (push m p d) q) =
    if decide (q = move d p) then true else Maze.visited (cell_at m q).
Proof.
  intros Hwf Hp Hn Hq. rewrite push_cell by done.
  repeat case_decide; rewrite ?visited_clear; reflexivity.
Qed.

End MazeStep.

Section MazeInvariant.

Implicit Types (m : Maze.t) (p q a b : Z * Z) (d : side) (f : Maze.Cell -> Maze.Cell).








End MazeInvariant.

Section MazeCounting.

Implicit Types (m : Maze.t) (p q a b : Z * Z) (d : side) (f : Maze.Cell -> Maze.Cell).



Lemma length_filter_alter (P : Maze.Cell -> bool) f (l : list Maze.Cell) i c :
  l !! i = Some c ->
  (length (List.filter P (alter f i l)) + b2n (P c) =
   length (List.filter P l) + b2n (P (f c)))%nat.
Proof.
  revert i. induction l as [|x l IH]; intros [|i] Hi; simplify_eq/=.
  - destruct (P (f c)), (P c); simpl; lia.
  - specialize (IH i Hi). destruct (P x); simpl; lia.
Qed.

Lemma grid_lookup m p :
  well_formed m -> in_grid m p ->
  Maze.grid m !! Maze.index m p.1 p.2 = Some (cell_at m p).
Proof.
  intros Hwf Hp. destruct (index_in_grid m p Hwf Hp) as [_ Hlt].
  unfold cell_at, Maze.at_.
  destruct (lookup_lt_is_Some_2 _ _ Hlt) as [c ->]. reflexivity.
Qed.

Lemma count_set_at (P : Maze.Cell -> bool) m p f :
  well_formed m -> in_grid m p ->
  (length (List.filter P (Maze.grid (Maze.set_at m p.1 p.2 f))) + b2n (P (cell_at m p)) =
   length (List.filter P (Maze.grid m)) + b2n (P (f (cell_at m p))))%nat.
Proof.
  intros Hwf Hp. simpl. apply length_filter_alter. by apply grid_lookup.
Qed.

Lemma count_push (P : Maze.Cell -> bool) m p d :
  well_formed m -> in_grid m p -> in_grid m (move d p) ->
  (length (List.filter P (Maze.grid (push m p d)))
   + b2n (P (cell_at m p)) + b2n (P (cell_at m (move d p))) =
   length (List.filter P (Maze.grid m))
   + b2n (P (clear_wall d (cell_at m p)))
   + b2n (P (Maze.set_visited true (clear_wall (opposite d) (cell_at m (move d p))))))%nat.
Proof.
  intros Hwf Hp Hn. unfold push. rewrite carve_move.
  set (n := move d p) in *.
  set (m1 := Maze.set_at m p.1 p.2 (clear_wall d)).
  set (m2 := Maze.set_at m1 n.1 n.2 (clear_wall (opposite d))).
  assert (Hwf1 : well_formed m1) by by apply set_at_well_formed.
  assert (Hwf2 : well_formed m2) by by apply set_at_well_formed.
  assert (Hnp : n <> p) by apply move_neq.
  pose proof (count_set_at P m p (clear_wall d) Hwf Hp) as E1.
  pose proof (count_set_at P m1 n (clear_wall (opposite d)) Hwf1 Hn) as E2.
  pose proof (count_set_at P m2 n (Maze.set_visited true) Hwf2 Hn) as E3.
  fold m1 in E1. fold m2 in E2.
  assert (C2 : cell_at m2 n = clear_wall (opposite d) (cell_at m1 n))
    by by apply cell_at_set_same.
  assert (C1 : cell_at m1 n = cell_at m n).
  { unfold m1. by apply cell_at_set_other. }
  rewrite C2, C1 in E3. rewrite C1 in E2. lia.
Qed.


Lemma count_unvisited_push m p d :
  well_formed m -> in_grid m p -> in_grid m (move d p) ->
  Maze.visited (cell_at m p) = true -> fresh m (move d p) ->
  (count_unvisited (push m p d) + 1 = count_unvisited m)%nat.
Proof.
  intros Hwf Hp Hn Hv Hf. unfold count_unvisited, fresh in *.
  pose proof (count_push (fun c => negb (Maze.visited c)) m p d Hwf Hp Hn) as E.
  cbv beta in E. rewrite !visited_clear, Hv, Hf in E.
  cbn [Maze.visited Maze.set_visited negb b2n] in E. lia.
Qed.


End MazeCounting.

Section MazeLoop.

Implicit Types (m : Maze.t) (p q a b : Z * Z) (d : side) (f : Maze.Cell -> Maze.Cell).

Lemma candidate_spec m q :
  Maze.candidate m q = true <-> in_grid m q /\ fresh m q.
Proof.
  unfold Maze.candidate, in_grid, fresh, cell_at.
  rewrite !andb_true_iff, negb_true_iff, !Z.leb_le, !Z.ltb_lt. tauto.
Qed.

Lemma in_neighbors m p q :
  In q (Maze.neighbors m p.1 p.2) <->
  (exists d, q = move d p) /\ in_grid m q /\ fresh m q.
Proof.
  unfold Maze.neighbors. rewrite filter_In, candidate_spec.
  destruct p as [x y]. simpl.
  replace (x + 0) with x by lia. replace (y + 0) with y by lia.
  replace (y + -1) with (y - 1) by lia. replace (x + -1) with (x - 1) by lia.
  split.
  - intros [[<-|[<-|[<-|[<-|[]]]]] H]; (split; [|done]).
    + by exists South. 
    + by exists East.
    + by exists North.
    + by exists West.
  - intros [[d ->] H]. split; [|done]. destruct d; simpl; tauto.
Qed.

Lemma pick_in r (nb : list (Z * Z)) : nb <> [] -> In (Maze.pick r nb) nb.
Proof.
  intros Hnb. unfold Maze.pick. apply nth_In.
  assert (0 < Z.of_nat (length nb)) by (destruct nb; [done|simpl; lia]).
  pose proof (Z.mod_pos_bound (r mod 2 ^ 64) (Z.of_nat (length nb))). lia.
Qed.



Section Loop.

Variable rng : Type.
Variable rand : rng -> Z * rng.


End Loop.

End MazeLoop.

Section MazeGenerate.

Implicit Types (m : Maze.t) (p q a b : Z * Z) (d : side) (f : Maze.Cell -> Maze.Cell).








End MazeGenerate.

Section MazeTheorems.

Variable rng : Type.
Variable srand : Z -> rng -> rng.
Variable rand : rng -> Z * rng.


(** C9, as the code has it. [generate] reseeds the generator from the
    clock: whatever state (seed) the caller left the generator in, two runs
    that read the same clock value on equal mazes give the same maze and
    leave the generator in the same state.  The hypothesis is the contract
    of [std::srand]: the new state depends on the seed alone. *)
Theorem generate_deterministic_in_clock (now : Z) (g1 g2 : rng) (m : Maze.t) :
  (forall seed a b, srand seed a = srand seed b) ->
  Maze.generate rng srand rand now g1 m = Maze.generate rng srand rand now g2 m.
Proof. intros Hsrand. unfold Maze.generate. by rewrite (Hsrand _ g1 g2). Qed.

End MazeTheorems.


Lemma generate_deterministic_in_clock_witness :
  (forall seed a b : Z, lcg_srand seed a = lcg_srand seed b) /\
  Maze.generate Z lcg_srand lcg_rand 1700000000 42 (Maze.create 8 6 0.297 0.210 0.0035) =
  Maze.generate Z lcg_srand lcg_rand 1700000000 7 (Maze.create 8 6 0.297 0.210 0.0035).
Proof.
  split; [reflexivity|].
  apply (generate_deterministic_in_clock Z lcg_srand lcg_rand). reflexivity.
Defined.

(** C9, as stated, fails: the caller installs the same seed 42 before two
    runs on 2x2 mazes, the clock reads 0 in the first run and 1 in the
    second, and the wall flags differ (the first run opens the south wall
    of the cell (0,0), the second its east wall). *)
Lemma generate_ignores_caller_seed :
  wall_flags (Maze.generate Z counter_srand counter_rand 0 (counter_srand 42 0)
                (Maze.create 2 2 0.297 0.210 0.0035)) <>
  wall_flags (Maze.generate Z counter_srand counter_rand 1 (counter_srand 42 0)
                (Maze.create 2 2 0.297 0.210 0.0035)).
Proof. vm_compute. discriminate. Qed.

(** The maze of [main.cpp], generated with the sample generator: the flood
    fill from (0,0) finds the 48 cells and there are 47 passages. *)
Example flood_fill_main_maze :
  match Maze.generate Z lcg_srand lcg_rand 1700000000 0 main_maze with
  | Some (m, _) => (flood_count m =? 48)%nat && (count_passages m =? 47)%nat
  | None => false
  end = true.
Proof. vm_compute. reflexivity. Qed.

(** * Properties of the ball *)

Local Open Scope Q_scope.

Lemma Qltb_lt (a b : Q) : Qltb a b = true <-> a < b.
Proof.
  unfold Qltb. rewrite negb_true_iff. split.
  - intros H. apply Qnot_le_lt. intros Hle. apply Qle_bool_iff in Hle. congruence.
  - intros H. destruct (Qle_bool b a) eqn:E; [|reflexivity].
    apply Qle_bool_iff in E. exfalso. by apply (Qlt_not_le a b).
Qed.

Lemma Qltb_ge (a b : Q) : Qltb a b = false <-> b <= a.
Proof.
  unfold Qltb. rewrite negb_false_iff. apply Qle_bool_iff.
Qed.

(** Case analysis on the comparisons of the code. *)
Ltac qcases :=
  repeat match goal with
         | |- context [Qltb ?a ?b] =>
           lazymatch a with context [Qltb _ _] => fail | _ => idtac end;
           lazymatch b with context [Qltb _ _] => fail | _ => idtac end;
           let H := fresh "Hcmp" in
           destruct (Qltb a b) eqn:H;
           [apply Qltb_lt in H | apply Qltb_ge in H]
         end.


Lemma Qtrunc_nonneg (q : Q) :
  0 <= q -> (0 <= Qtrunc q)%Z /\ inject_Z (Qtrunc q) <= q /\ q < inject_Z (Qtrunc q) + 1.
Proof.
  intros Hq. assert (E : Qtrunc q = Qfloor q).
  { unfold Qtrunc. destruct q as [n d]. simpl.
    apply Z.quot_div_nonneg; [|lia].
    unfold Qle in Hq. simpl in Hq. lia. }
  rewrite E. split; [|split].
  - change 0%Z with (Qfloor 0). by apply Qfloor_resp_le.
  - apply Qfloor_le.
  - pose proof (Qlt_floor q) as H. rewrite inject_Z_plus in H. exact H.
Qed.


Section BallUpdate.

Variable Rodrigues : Vec3 -> Mat3.

Implicit Types (m : Maze.t) (b : Ball.t) (dt : Q) (rvec : Vec3).


Lemma latch_radius R b : Ball.radius (Ball.latch R b) = Ball.radius b.
Proof. unfold Ball.latch. by destruct (Ball.hasFlatRef b). Qed.

Lemma latch_hasFlatRef R b : Ball.hasFlatRef (Ball.latch R b) = true.
Proof. unfold Ball.latch. by destruct (Ball.hasFlatRef b) eqn:E. Qed.

Lemma latch_latched R b : Ball.hasFlatRef b = true -> Ball.latch R b = b.
Proof. unfold Ball.latch. by intros ->. Qed.

Lemma latch_settings R b :
  Ball.g (Ball.latch R b) = Ball.g b /\ Ball.gain (Ball.latch R b) = Ball.gain b /\
  Ball.deadzone (Ball.latch R b) = Ball.deadzone b.
Proof. unfold Ball.latch. by destruct (Ball.hasFlatRef b). Qed.

(** The state after [update], field by field. *)
Lemma update_fields dt rvec m b :
  let R := Rodrigues rvec in
  let b1 := Ball.latch R b in
  let v := Ball.integrate_vel dt (Ball.acc R b1) b1 in
  let np := Ball.tentative dt v b1 in
  let b' := Ball.update Rodrigues dt rvec m b in
  X (Ball.pos b') = Ball.clamp (Ball.radius b) (Ball.maxW m b1)
                      (Ball.collide_x m b1 (X np) (X v)).1 /\
  Y (Ball.pos b') = Ball.clamp (Ball.radius b) (Ball.maxH m b1)
                      (Ball.collide_y m b1 (Y np) (Y v)).1 /\
  X (Ball.vel b') = (Ball.collide_x m b1 (X np) (X v)).2 /\
  Y (Ball.vel b') = (Ball.collide_y m b1 (Y np) (Y v)).2 /\
  Ball.radius b' = Ball.radius b /\
  Ball.hasFlatRef b' = true /\ Ball.R0 b' = Ball.R0 b1 /\
  Ball.g b' = Ball.g b /\ Ball.gain b' = Ball.gain b /\ Ball.deadzone b' = Ball.deadzone b.
Proof.
  intros R b1 v np b'. unfold b', Ball.update. fold R. fold b1. fold v. fold np.
  destruct (Ball.collide_x m b1 (X np) (X v)) as [nx vx].
  destruct (Ball.collide_y m b1 (Y np) (Y v)) as [ny vy].
  unfold Ball.with_pos, Ball.with_vel.
  cbn [Ball.pos Ball.vel Ball.radius Ball.hasFlatRef Ball.R0 Ball.g Ball.gain
       Ball.deadzone X Y fst snd].
  destruct (latch_settings R b) as (Hg & Hgain & Hdz). fold b1 in Hg, Hgain, Hdz.
  assert (Hr : Ball.radius b1 = Ball.radius b) by apply latch_radius.
  assert (Hf : Ball.hasFlatRef b1 = true) by apply latch_hasFlatRef.
  rewrite Hr, Hf, Hg, Hgain, Hdz. repeat split; done.
Qed.





End BallUpdate.

Ltac qdecide :=
  lazymatch goal with
  | |- (_ <= _)%Q => apply Qle_bool_iff; vm_compute; reflexivity
  | |- (_ < _)%Q => apply Qltb_lt; vm_compute; reflexivity
  | |- (_ == _)%Q => apply Qeq_bool_iff; vm_compute; reflexivity
  end.



Section BallWalls.

Variable Rodrigues : Vec3 -> Mat3.

Implicit Types (m : Maze.t) (b : Ball.t) (dt : Q) (rvec : Vec3).

Lemma collide_x_axis m b n v :
  Ball.collide_x m b n v =
  collide_axis (Maze.wW (Maze.at_ m (Ball.gx m b) (Ball.gy m b)))
               (Maze.wE (Maze.at_ m (Ball.gx m b) (Ball.gy m b)))
               (Ball.cellLeft m b) (Ball.cellRight m b) (Ball.radius b) n v.
Proof. reflexivity. Qed.

Lemma collide_y_axis m b n v :
  Ball.collide_y m b n v =
  collide_axis (Maze.wN (Maze.at_ m (Ball.gx m b) (Ball.gy m b)))
               (Maze.wS (Maze.at_ m (Ball.gx m b) (Ball.gy m b)))
               (Ball.cellTop m b) (Ball.cellBottom m b) (Ball.radius b) n v.
Proof. reflexivity. Qed.








End BallWalls.



(** The run of the counterexample, step by step: the position after each of
    the five calls, and the cell the next call takes its walls from. *)
Lemma tunnel_trace :
  let after (n : nat) :=
    run Rodrigues_rational tunnel_maze (replicate n (1 # 20, tilt_east)) tunnel_ball in
  (X (Ball.pos (after 1%nat)) == 0.06425 /\ Ball.gx tunnel_maze (after 1%nat) = 1%Z) /\
  (X (Ball.pos (after 2%nat)) == 0.020208525 /\ Ball.gx tunnel_maze (after 2%nat) = 0%Z) /\
  (X (Ball.pos (after 3%nat)) == 0.01 /\ Ball.gx tunnel_maze (after 3%nat) = 0%Z) /\
  (X (Ball.pos (after 4%nat)) == 0.036486511275 /\ Ball.gx tunnel_maze (after 4%nat) = 0%Z) /\
  (X (Ball.pos (after 5%nat)) == 0.07984629585875 /\ Ball.gx tunnel_maze (after 5%nat) = 2%Z).
Proof.
  intros after. repeat split; try qdecide; vm_compute; reflexivity.
Qed.

(** Released at rest in the same cell, under the same acceleration, the
    ball is held by the east wall: after each of the first ten steps it
    is in the cell (1,0), not beyond the wall plane. *)
Example wall_holds_from_rest :
  forallb (fun n : nat =>
             let b := run Rodrigues_rational tunnel_maze (replicate n (1 # 20, tilt_east))
                        (Ball.with_vel (mkvec2 0 0) tunnel_ball) in
             Qle_bool (X (Ball.pos b))
                      (Ball.cellRight tunnel_maze tunnel_ball - Ball.radius tunnel_ball)
             && (Ball.gx tunnel_maze b =? 1)%Z)
          (seq 1 10) = true.
Proof. vm_compute. reflexivity. Qed.

Section BallGravity.

Variable Rodrigues : Vec3 -> Mat3.

Implicit Types (m : Maze.t) (b : Ball.t) (dt : Q) (rvec : Vec3).

Lemma applyDeadzone_zero (v dz : Q) :
  v == 0 -> 0 <= dz -> Ball.applyDeadzone v dz == 0.
Proof.
  intros Hv Hdz. assert (Ha : Qabs v == 0) by (rewrite Hv; reflexivity).
  unfold Ball.applyDeadzone. qcases; try reflexivity; try lra.
  assert (Hz : dz == 0) by lra. rewrite Ha, Hz. reflexivity.
Qed.

(** Components of the projected gravity that fall inside the deadzone give
    no acceleration at all; this covers a matrix that is orthogonal only up
    to rounding. *)
Lemma acc_inside_deadzone (R : Mat3) b :
  Qabs (c0 (Ball.g_cur (Ball.R0 b) R)) < Ball.deadzone b ->
  Qabs (c1 (Ball.g_cur (Ball.R0 b) R)) < Ball.deadzone b ->
  X (Ball.acc R b) == 0 /\ Y (Ball.acc R b) == 0.
Proof.
  intros Hx Hy. apply Qltb_lt in Hx, Hy. unfold Ball.acc, Ball.applyDeadzone.
  cbn [X Y]. rewrite Hx, Hy. split; ring.
Qed.



(** C10. A call of [update] on a ball without reference, with a rotation
    whose matrix is orthogonal and a deadzone that is not negative, latches
    the rotation as the reference and applies a planar acceleration that is
    exactly zero: the velocity before the collisions is the old one damped
    by 0.85 and the tentative position is the old one advanced by that
    velocity times [dt]; the collisions and the clamp to the maze then act
    on these two. *)
Theorem update_first_call_latches dt rvec m b :
  Ball.hasFlatRef b = false -> orthogonal (Rodrigues rvec) -> 0 <= Ball.deadzone b ->
  let R := Rodrigues rvec in
  let b1 := Ball.latch R b in
  let a := Ball.acc R b1 in
  let v := Ball.integrate_vel dt a b1 in
  let np := Ball.tentative dt v b1 in
  let b' := Ball.update Rodrigues dt rvec m b in
  Ball.R0 b' = R /\ Ball.hasFlatRef b' = true /\
  X a == 0 /\ Y a == 0 /\
  X v == X (Ball.vel b) * 0.85 /\ Y v == Y (Ball.vel b) * 0.85 /\
  X np == X (Ball.pos b) + X (Ball.vel b) * 0.85 * dt /\
  Y np == Y (Ball.pos b) + Y (Ball.vel b) * 0.85 * dt /\
  X (Ball.pos b') = Ball.clamp (Ball.radius b) (Ball.maxW m b1)
                      (Ball.collide_x m b1 (X np) (X v)).1 /\
  Y (Ball.pos b') = Ball.clamp (Ball.radius b) (Ball.maxH m b1)
                      (Ball.collide_y m b1 (Y np) (Y v)).1 /\
  X (Ball.vel b') = (Ball.collide_x m b1 (X np) (X v)).2 /\
  Y (Ball.vel b') = (Ball.collide_y m b1 (Y np) (Y v)).2.
Proof.
  intros Hflat Horth Hdz R b1 a v np b'.
  destruct (update_fields Rodrigues dt rvec m b)
    as (Ex & Ey & Evx & Evy & _ & Ef & ER & _).
  fold R b1 a v np b' in Ex, Ey, Evx, Evy, Ef, ER.
  assert (Eb : b1 = Ball.with_flat R b) by (unfold b1, Ball.latch; by rewrite Hflat).
  assert (HR0 : Ball.R0 b1 = R) by by rewrite Eb.
  assert (Hdz1 : Ball.deadzone b1 = Ball.deadzone b) by by rewrite Eb.
  assert (Hvel : Ball.vel b1 = Ball.vel b) by by rewrite Eb.
  assert (Hpos : Ball.pos b1 = Ball.pos b) by by rewrite Eb.
  destruct Horth as (_ & _ & H20 & H21 & _). fold R in H20, H21.
  cbn [eye row2 c0 c1] in H20, H21.
  assert (Hgx : c0 (Ball.g_cur R R) == 0).
  { unfold Ball.g_cur, Ball.g0, mul_vec, transpose, col, dot3. cbn [row0 row1 row2 c0 c1 c2].
    rewrite H20. ring. }
  assert (Hgy : c1 (Ball.g_cur R R) == 0).
  { unfold Ball.g_cur, Ball.g0, mul_vec, transpose, col, dot3. cbn [row0 row1 row2 c0 c1 c2].
    rewrite H21. ring. }
  assert (Hax : X a == 0).
  { unfold a, Ball.acc. cbn [X]. rewrite HR0, Hdz1.
    rewrite (applyDeadzone_zero _ _ Hgx Hdz). ring. }
  assert (Hay : Y a == 0).
  { unfold a, Ball.acc. cbn [Y]. rewrite HR0, Hdz1.
    rewrite (applyDeadzone_zero _ _ Hgy Hdz). ring. }
  assert (Hvx : X v == X (Ball.vel b) * 0.85).
  { unfold v, Ball.integrate_vel. cbn [X]. rewrite Hvel, Hax. ring. }
  assert (Hvy : Y v == Y (Ball.vel b) * 0.85).
  { unfold v, Ball.integrate_vel. cbn [Y]. rewrite Hvel, Hay. ring. }
  split; [by rewrite ER|]. split; [exact Ef|].
  split; [exact Hax|]. split; [exact Hay|]. split; [exact Hvx|]. split; [exact Hvy|].
  split; [unfold np, Ball.tentative; cbn [X]; by rewrite Hpos, Hvx|].
  split; [unfold np, Ball.tentative; cbn [Y]; by rewrite Hpos, Hvy|].
  done.
Qed.

(** C7. From a state with a latched reference, no call of [update]
    changes [R0]; along any sequence of operations on the ball that
    contains no [setFlatReference], [R0] stays what it was and stays
    latched; [setFlatReference] replaces the one reference the ball holds
    by the rotation it is given; and an iteration of the frame loop leaves
    [R0] as it was unless the reset key is down or a pose is detected while
    no reference is latched. *)
Theorem flat_reference_kept b (ops : list ball_op) :
  Ball.hasFlatRef b = true ->
  (forall dt rvec m, Ball.R0 (Ball.update Rodrigues dt rvec m b) = Ball.R0 b /\
                     Ball.hasFlatRef (Ball.update Rodrigues dt rvec m b) = true) /\
  (forallb (fun o => negb (is_setFlatReference o)) ops = true ->
   Ball.R0 (apply_ops Rodrigues ops b) = Ball.R0 b /\
   Ball.hasFlatRef (apply_ops Rodrigues ops b) = true) /\
  (forall rvec, Ball.R0 (Ball.setFlatReference Rodrigues rvec b) = Rodrigues rvec /\
                Ball.hasFlatRef (Ball.setFlatReference Rodrigues rvec b) = true) /\
  (forall poseOk keyR dt rvec m st,
     loop_latched st ->
     loop_latched (frame Rodrigues poseOk keyR dt rvec m st) /\
     (keyR = false -> poseOk = false \/ Ball.hasFlatRef (loop_ball st) = true ->
      Ball.R0 (loop_ball (frame Rodrigues poseOk keyR dt rvec m st))
      = Ball.R0 (loop_ball st))).
Proof.
  intros Hflat.
  assert (Hupd : forall b0 dt rvec m, Ball.hasFlatRef b0 = true ->
            Ball.R0 (Ball.update Rodrigues dt rvec m b0) = Ball.R0 b0 /\
            Ball.hasFlatRef (Ball.update Rodrigues dt rvec m b0) = true).
  { intros b0 dt rvec m H0.
    destruct (update_fields Rodrigues dt rvec m b0) as (_ & _ & _ & _ & _ & Ef & ER & _).
    rewrite ER, Ef. by rewrite latch_latched. }
  split; [intros; by apply Hupd|]. split; [|split; [by intros|]].
  2: { intros poseOk keyR dt rvec m [hp b0] Hinv.
       assert (Hlat : forall b1 dt1 rvec1 m1,
                 Ball.hasFlatRef (Ball.update Rodrigues dt1 rvec1 m1 b1) = true).
       { intros b1 dt1 rvec1 m1. apply (update_fields Rodrigues dt1 rvec1 m1 b1). }
       unfold loop_latched, frame in *. cbn [loop_hasPose loop_ball] in *.
       destruct poseOk; cbn [andb].
       - split; [intros _; apply Hlat|]. intros -> [Hp|Hl]; [discriminate Hp|].
         rewrite Hl. cbn [negb]. by apply Hupd.
       - destruct hp; cbn [loop_hasPose loop_ball].
         + split; [intros _; apply Hlat|]. intros -> _. apply Hupd. by apply Hinv.
         + split; [intros Hf; discriminate Hf|]. by intros _ _. }
  revert b Hflat. induction ops as [|o ops IH]; intros b Hflat Hops; [done|].
  simpl in Hops. apply andb_true_iff in Hops as [Ho Hops].
  change (apply_ops Rodrigues (o :: ops) b)
    with (apply_ops Rodrigues ops (apply_op Rodrigues b o)).
  assert (Hstep : Ball.R0 (apply_op Rodrigues b o) = Ball.R0 b /\
                  Ball.hasFlatRef (apply_op Rodrigues b o) = true).
  { destruct o as [dt rvec m|rvec|m|v0]; simpl in *; try done. by apply Hupd. }
  destruct Hstep as [E1 E2]. rewrite <- E1. by apply IH.
Qed.

End BallGravity.

(** * Properties of the pose smoother *)

Lemma qdot_qneg (a b : quat) : qdot (qneg a) b == - qdot a b.
Proof. unfold qdot, qneg. cbn [qw qx qy qz]. ring. Qed.

(** After the sign correction the two quaternions are on the same side. *)
Lemma signCorrect_dot (qCur qPre : quat) :
  0 <= qdot (PoseSmoother.signCorrect qCur qPre) qPre.
Proof.
  unfold PoseSmoother.signCorrect. qcases; [|lra].
  rewrite qdot_qneg. lra.
Qed.

(** A quaternion and its opposite, which stand for the same rotation, are
    corrected to the same quaternion, unless they are orthogonal to the
    previous one. *)
Lemma signCorrect_antipodal (q qPre : quat) :
  ~ qdot q qPre == 0 ->
  quat_eq (PoseSmoother.signCorrect (qneg q) qPre) (PoseSmoother.signCorrect q qPre).
Proof.
  intros Hne. unfold PoseSmoother.signCorrect.
  pose proof (qdot_qneg q qPre) as E.
  destruct (Qltb (qdot (qneg q) qPre) 0) eqn:H1; destruct (Qltb (qdot q qPre) 0) eqn:H2.
  - apply Qltb_lt in H1, H2. lra.
  - unfold quat_eq, qneg. cbn [qw qx qy qz]. repeat split; ring.
  - unfold quat_eq. repeat split; reflexivity.
  - apply Qltb_ge in H1, H2. exfalso. apply Hne. lra.
Qed.

Section Smoothing.

Variable Rodrigues : Vec3 -> Mat3.
Variable RodriguesInv : Mat3 -> Vec3.
Variable quat_cast : glm_mat3 -> quat.
Variable mat3_cast : quat -> glm_mat3.
Variable slerp : quat -> quat -> Q -> quat.

Abbreviation smooth := (PoseSmoother.smooth Rodrigues RodriguesInv quat_cast mat3_cast slerp).
Abbreviation toQuat := (PoseSmoother.toQuat quat_cast).

(** C8. A call with an empty rotation or an empty translation returns
    normally and leaves the state and both arguments as they were. *)
Theorem smooth_degenerate_noop (s : PoseSmoother.t) (rvec tvec : PoseSmoother.cvMat) :
  rvec = None \/ tvec = None ->
  smooth s rvec tvec = Some (s, rvec, tvec).
Proof.
  intros [-> | ->]; unfold PoseSmoother.smooth; [reflexivity|].
  by destruct rvec.
Qed.

(** C5. On a state without pose, [smooth] stores the raw rotation and
    translation as they are, sets the flag and returns them unchanged. On a
    state with a stored pose it returns the translation
    [(1 - alpha) * tPrev + alpha * t] and the rotation obtained from the raw
    one by conversion to a quaternion, change of sign when its dot product
    with the previous quaternion is negative (after which the dot product
    is not negative), [slerp] from the previous quaternion with weight
    [alpha] and conversion back to a rotation vector; both become the
    stored pose. *)
Theorem smooth_spec (s : PoseSmoother.t) (r t : Vec3) :
  (PoseSmoother.hasPose s = false ->
   smooth s (Some r) (Some t) =
   Some (PoseSmoother.mk true (Some r) (Some t) (PoseSmoother.alphaPose s),
         Some r, Some t)) /\
  (forall rp tp,
     PoseSmoother.hasPose s = true ->
     PoseSmoother.rPrev s = Some rp -> PoseSmoother.tPrev s = Some tp ->
     let a := PoseSmoother.alphaPose s in
     let t' := mkVec3 ((1 - a) * c0 tp + a * c0 t) ((1 - a) * c1 tp + a * c1 t)
                      ((1 - a) * c2 tp + a * c2 t) in
     let qPre := toQuat (Rodrigues rp) in
     let qRaw := toQuat (Rodrigues r) in
     let qCur := if Qltb (qdot qRaw qPre) 0 then qneg qRaw else qRaw in
     let r' := RodriguesInv (PoseSmoother.fromGlm (mat3_cast (slerp qPre qCur a))) in
     0 <= qdot qCur qPre /\
     smooth s (Some r) (Some t) =
     Some (PoseSmoother.mk true (Some r') (Some t') a, Some r', Some t')).
Proof.
  split.
  - intros H. unfold PoseSmoother.smooth. by rewrite H.
  - intros rp tp H Hr Ht a t' qPre qRaw qCur r'. split.
    + apply signCorrect_dot.
    + unfold PoseSmoother.smooth. by rewrite H, Hr, Ht.
Qed.

(** The states reached through [smooth] hold a pose once the flag is set,
    and on such states [smooth] raises no exception. *)
Lemma smooth_pose_stored (s : PoseSmoother.t) (rvec tvec : PoseSmoother.cvMat) :
  pose_stored s ->
  exists s' rvec' tvec', smooth s rvec tvec = Some (s', rvec', tvec') /\ pose_stored s'.
Proof.
  intros Hs. unfold PoseSmoother.smooth.
  destruct rvec as [r|], tvec as [t|]; try by eauto.
  destruct (PoseSmoother.hasPose s) eqn:E; simpl.
  - destruct (Hs E) as (rp & tp & -> & ->).
    do 3 eexists. split; [reflexivity|]. intros _. simpl. eauto.
  - do 3 eexists. split; [reflexivity|]. intros _. simpl. eauto.
Qed.

End Smoothing.

Lemma smooth_degenerate_noop_witness :
  let s := PoseSmoother.mk true (Some (mkVec3 0 (1 # 2) 0)) (Some (mkVec3 0 0 1)) 0.25 in
  (@None Vec3 = None \/ Some (mkVec3 0 0 2) = None) /\
  sample_smooth s None (Some (mkVec3 0 0 2)) = Some (s, None, Some (mkVec3 0 0 2)).
Proof.
  intros s. split; [by left|]. unfold sample_smooth.
  apply (smooth_degenerate_noop Rodrigues_rational sample_RodriguesInv sample_quat_cast
           sample_mat3_cast sample_slerp). by left.
Defined.

(** The stand-in for [cv::Rodrigues] yields orthogonal matrices. *)
Lemma Rodrigues_rational_orthogonal (a : Vec3) : orthogonal (Rodrigues_rational a).
Proof.
  destruct a as [x y z].
  assert (Hn : ~ 1 + x * x + y * y + z * z == 0) by nra.
  unfold orthogonal, Mat3_eq, Vec3_eq, Rodrigues_rational, mul, transpose, col, dot3, eye.
  cbn [row0 row1 row2 c0 c1 c2].
  repeat split; field; exact Hn.
Qed.

(** Two steps of the ball of [main.cpp] at 60 frames per second. The first
    call latches the tilted board as the reference and leaves the ball at
    the centre of its cell; with the flat board as the reference, the same
    tilt accelerates the ball by 9.81 m/s^2 toward the east. *)
Example update_main_ball :
  let b1 := Ball.update Rodrigues_rational (1 # 60) tilt_east main_maze main_ball in
  let b2 := Ball.update Rodrigues_rational (1 # 60) tilt_east main_maze
              (Ball.setFlatReference Rodrigues_rational (mkVec3 0 0 0) main_ball) in
  (Ball.hasFlatRef b1 = true /\
   X (Ball.pos b1) == 0.0185625 /\ Y (Ball.pos b1) == 0.0175 /\
   X (Ball.vel b1) == 0 /\ Y (Ball.vel b1) == 0) /\
  (X (Ball.vel b2) == 0.138975 /\ Y (Ball.vel b2) == 0 /\
   X (Ball.pos b2) == 0.02087875 /\ Y (Ball.pos b2) == 0.0175).
Proof. cbv zeta. repeat split; try qdecide. Qed.


Lemma update_first_call_latches_witness :
  Ball.hasFlatRef main_ball = false /\ orthogonal (Rodrigues_rational tilt_east) /\
  0 <= Ball.deadzone main_ball /\
  Ball.R0 (Ball.update Rodrigues_rational (1 # 60) tilt_east main_maze main_ball)
  = Rodrigues_rational tilt_east /\
  X (Ball.acc (Rodrigues_rational tilt_east)
       (Ball.latch (Rodrigues_rational tilt_east) main_ball)) == 0.
Proof.
  assert (H1 : Ball.hasFlatRef main_ball = false) by reflexivity.
  assert (H2 : orthogonal (Rodrigues_rational tilt_east))
    by apply Rodrigues_rational_orthogonal.
  assert (H3 : 0 <= Ball.deadzone main_ball) by qdecide.
  split; [exact H1|]. split; [exact H2|]. split; [exact H3|].
  destruct (update_first_call_latches Rodrigues_rational (1 # 60) tilt_east main_maze
              main_ball H1 H2 H3) as (E1 & _ & E2 & _).
  split; [exact E1|exact E2].
Defined.

Lemma flat_reference_kept_witness :
  let b := Ball.setFlatReference Rodrigues_rational (mkVec3 0 0 0) main_ball in
  let ops := [OpUpdate (1 # 60) tilt_east main_maze; OpSetVel (mkvec2 0 0);
              OpReset main_maze; OpUpdate (1 # 20) (mkVec3 (1 # 2) 0 0) main_maze] in
  Ball.hasFlatRef b = true /\
  forallb (fun o => negb (is_setFlatReference o)) ops = true /\
  Ball.R0 (apply_ops Rodrigues_rational ops b) = Ball.R0 b.
Proof.
  intros b ops.
  assert (H1 : Ball.hasFlatRef b = true) by reflexivity.
  assert (H2 : forallb (fun o => negb (is_setFlatReference o)) ops = true) by reflexivity.
  split; [exact H1|]. split; [exact H2|].
  destruct (flat_reference_kept Rodrigues_rational b ops H1) as (_ & Hops & _).
  exact (proj1 (Hops H2)).
Defined.

Lemma smooth_spec_witness :
  let s := PoseSmoother.mk true (Some (mkVec3 0 0 0)) (Some (mkVec3 0 0 1)) 0.25 in
  PoseSmoother.hasPose s = true /\
  exists r' t',
    c1 r' == 2 # 19 /\ c2 t' == 5 # 4 /\
    sample_smooth s (Some (mkVec3 0 (1 # 2) 0)) (Some (mkVec3 0 0 2)) =
    Some (PoseSmoother.mk true (Some r') (Some t') 0.25, Some r', Some t').
Proof.
  intros s. split; [reflexivity|].
  destruct (smooth_spec Rodrigues_rational sample_RodriguesInv sample_quat_cast
              sample_mat3_cast sample_slerp s (mkVec3 0 (1 # 2) 0) (mkVec3 0 0 2))
    as [_ H].
  destruct (H (mkVec3 0 0 0) (mkVec3 0 0 1) eq_refl eq_refl eq_refl) as [_ E].
  do 2 eexists. split; [|split]. 3: exact E. all: cbn [c1 c2]; qdecide.
Defined.

(** The smoother of [main.cpp] on its first two frames, and a smoother
    with [alphaPose = 1], which returns the raw pose. *)
Example smooth_first_frames :
  let s1 := PoseSmoother.mk true (Some (mkVec3 0 0 0)) (Some (mkVec3 0 0 1)) 0.25 in
  sample_smooth main_smoother (Some (mkVec3 0 0 0)) (Some (mkVec3 0 0 1))
  = Some (s1, Some (mkVec3 0 0 0), Some (mkVec3 0 0 1)) /\
  match sample_smooth s1 (Some (mkVec3 0 (1 # 2) 0)) (Some (mkVec3 0 0 2)) with
  | Some (s2, Some r, Some t) =>
    Vec3_eqb r (mkVec3 0 (2 # 19) 0) && Vec3_eqb t (mkVec3 0 0 (5 # 4))
  | _ => false
  end = true.
Proof. split; [reflexivity|]. vm_compute. reflexivity. Qed.

Example smooth_alpha_one :
  match sample_smooth (PoseSmoother.mk true (Some (mkVec3 0 0 0)) (Some (mkVec3 0 0 1)) 1)
          (Some (mkVec3 (1 # 3) (1 # 2) (-1 # 5))) (Some (mkVec3 0 0 2)) with
  | Some (_, Some r, Some t) =>
    Vec3_eqb r (mkVec3 (1 # 3) (1 # 2) (-1 # 5)) && Vec3_eqb t (mkVec3 0 0 2)
  | _ => false
  end = true.
Proof. vm_compute. reflexivity. Qed.


(** * Further properties of the ball *)

Local Open Scope Q_scope.

(** [applyDeadzone] by cases, for a deadzone that is not negative. *)
Lemma applyDeadzone_cases (v dz : Q) :
  0 <= dz ->
  (dz <= v /\ Ball.applyDeadzone v dz == (v - dz) / (1 - dz)) \/
  (v <= - dz /\ Ball.applyDeadzone v dz == (v + dz) / (1 - dz)) \/
  ((- dz < v /\ v < dz) /\ Ball.applyDeadzone v dz == 0).
Proof.
  intros Hdz. unfold Ball.applyDeadzone.
  destruct (Qlt_le_dec v 0) as [Hneg|Hpos].
  - assert (Ha : Qabs v == - v) by (apply Qabs_neg; lra).
    qcases.
    + right; right. split; [lra|reflexivity].
    + lra.
    + right; left. split; [lra|]. rewrite Ha. unfold Qdiv. ring.
  - assert (Ha : Qabs v == v) by (apply Qabs_pos; lra).
    qcases.
    + right; right. split; [lra|reflexivity].
    + left. split; [lra|]. rewrite Ha. unfold Qdiv. ring.
    + assert (Hv : v == 0) by lra. assert (Hz : dz == 0) by lra.
      left. split; [lra|]. rewrite Ha, Hv, Hz. reflexivity.
Qed.

(** The scale factor of the shaping. *)
Lemma deadzone_scale (dz : Q) :
  dz < 1 -> 0 < / (1 - dz) /\ (1 - dz) * / (1 - dz) == 1.
Proof.
  intros H. split.
  - apply Qinv_lt_0_compat. lra.
  - apply Qmult_inv_r. lra.
Qed.

(** The shaping keeps [[-1, 1]]. *)
Lemma applyDeadzone_unit (v dz : Q) :
  0 <= dz -> dz < 1 -> -1 <= v -> v <= 1 ->
  -1 <= Ball.applyDeadzone v dz /\ Ball.applyDeadzone v dz <= 1.
Proof.
  intros Hdz H1 Hlo Hhi. destruct (deadzone_scale dz H1) as [He Hone].
  set (e := / (1 - dz)) in *.
  destruct (applyDeadzone_cases v dz Hdz) as [[C E]|[[C E]|[C E]]];
    rewrite E; unfold Qdiv; fold e; split; nra.
Qed.

(** X1. [applyDeadzone] is non-decreasing and maps [[-1, 1]] into
    [[-1, 1]], for a deadzone in [[0, 1)]. *)
Theorem applyDeadzone_monotone (v v' dz : Q) :
  0 <= dz -> dz < 1 -> v <= v' ->
  Ball.applyDeadzone v dz <= Ball.applyDeadzone v' dz /\
  (-1 <= v -> v' <= 1 ->
   -1 <= Ball.applyDeadzone v dz /\ Ball.applyDeadzone v' dz <= 1).
Proof.
  intros Hdz H1 Hle. destruct (deadzone_scale dz H1) as [He Hone].
  set (e := / (1 - dz)) in *.
  destruct (applyDeadzone_cases v dz Hdz) as [[C E]|[[C E]|[C E]]];
    destruct (applyDeadzone_cases v' dz Hdz) as [[C' E']|[[C' E']|[C' E']]];
    rewrite E, E'; unfold Qdiv; fold e; (split; [|intros Hlo Hhi; split]); nra.
Qed.

Lemma applyDeadzone_monotone_witness :
  0 <= 0.03 /\ 0.03 < 1 /\ -(1 # 2) <= 1 # 50 /\
  Ball.applyDeadzone (-(1 # 2)) 0.03 <= Ball.applyDeadzone (1 # 50) 0.03.
Proof.
  assert (H1 : 0 <= 0.03) by qdecide. assert (H2 : 0.03 < 1) by qdecide.
  assert (H3 : -(1 # 2) <= 1 # 50) by qdecide.
  split; [exact H1|]. split; [exact H2|]. split; [exact H3|].
  exact (proj1 (applyDeadzone_monotone (-(1 # 2)) (1 # 50) 0.03 H1 H2 H3)).
Defined.

(** X2. [applyDeadzone] has no jump: two inputs that differ by [d] give
    outputs that differ by at most [d / (1 - deadzone)]. *)
Theorem applyDeadzone_continuous (v v' dz : Q) :
  0 <= dz -> dz < 1 ->
  Qabs (Ball.applyDeadzone v' dz - Ball.applyDeadzone v dz) <= Qabs (v' - v) / (1 - dz).
Proof.
  intros Hdz H1. destruct (deadzone_scale dz H1) as [He Hone].
  set (e := / (1 - dz)) in *.
  destruct (applyDeadzone_cases v dz Hdz) as [[C E]|[[C E]|[C E]]];
    destruct (applyDeadzone_cases v' dz Hdz) as [[C' E']|[[C' E']|[C' E']]];
    rewrite E, E'; unfold Qdiv; fold e;
    apply Qabs_case; intros; apply Qabs_case; intros; nra.
Qed.

Lemma applyDeadzone_continuous_witness :
  0 <= 0.03 /\ 0.03 < 1 /\
  Qabs (Ball.applyDeadzone (3 # 100) 0.03 - Ball.applyDeadzone (29 # 1000) 0.03)
  <= Qabs ((3 # 100) - (29 # 1000)) / (1 - 0.03).
Proof.
  assert (H1 : 0 <= 0.03) by qdecide. assert (H2 : 0.03 < 1) by qdecide.
  split; [exact H1|]. split; [exact H2|].
  exact (applyDeadzone_continuous (29 # 1000) (3 # 100) 0.03 H1 H2).
Defined.

(** The Cauchy-Schwarz inequality for unit vectors. *)
Lemma cauchy_schwarz3 (a b : Vec3) :
  dot3 a a == 1 -> dot3 b b == 1 -> -1 <= dot3 a b /\ dot3 a b <= 1.
Proof.
  destruct a as [a0 a1 a2], b as [b0 b1 b2]. unfold dot3. cbn [c0 c1 c2].
  intros Ha Hb.
  assert (L : (a0 * a0 + a1 * a1 + a2 * a2) * (b0 * b0 + b1 * b1 + b2 * b2)
              - (a0 * b0 + a1 * b1 + a2 * b2) * (a0 * b0 + a1 * b1 + a2 * b2)
              == (a0 * b1 - a1 * b0) * (a0 * b1 - a1 * b0)
                 + (a0 * b2 - a2 * b0) * (a0 * b2 - a2 * b0)
                 + (a1 * b2 - a2 * b1) * (a1 * b2 - a2 * b1)) by ring.
  set (d := a0 * b0 + a1 * b1 + a2 * b2) in *.
  set (p := a0 * b1 - a1 * b0) in *. set (q := a0 * b2 - a2 * b0) in *.
  set (r := a1 * b2 - a2 * b1) in *.
  rewrite Ha, Hb in L.
  assert (0 <= p * p) by nra. assert (0 <= q * q) by nra. assert (0 <= r * r) by nra.
  assert (d * d <= 1) by lra. split; nra.
Qed.

(** The columns of an orthogonal matrix are unit vectors. *)
Lemma orthogonal_unit_columns (R : Mat3) :
  orthogonal R ->
  dot3 (col c0 R) (col c0 R) == 1 /\ dot3 (col c1 R) (col c1 R) == 1 /\
  dot3 (col c2 R) (col c2 R) == 1.
Proof.
  intros ((H00 & _ & _) & (_ & H11 & _) & (_ & _ & H22)).
  repeat split; assumption.
Qed.

(** The planar components of [g_cur]: minus the third column of [R0]
    against the first two columns of [R]. *)
Lemma g_cur_components (R0 R : Mat3) :
  c0 (Ball.g_cur R0 R) == - dot3 (col c2 R0) (col c0 R) /\
  c1 (Ball.g_cur R0 R) == - dot3 (col c2 R0) (col c1 R).
Proof.
  unfold Ball.g_cur, Ball.g0, mul_vec, mul, transpose, col, dot3.
  cbn [row0 row1 row2 c0 c1 c2]. split; ring.
Qed.

(** The planar components of gravity in the frame of the board are those
    of a unit vector. *)
Lemma g_cur_unit (R0 R : Mat3) :
  orthogonal R0 -> orthogonal R ->
  (-1 <= c0 (Ball.g_cur R0 R) /\ c0 (Ball.g_cur R0 R) <= 1) /\
  (-1 <= c1 (Ball.g_cur R0 R) /\ c1 (Ball.g_cur R0 R) <= 1).
Proof.
  intros H0 HR.
  destruct (orthogonal_unit_columns _ H0) as (_ & _ & U2).
  destruct (orthogonal_unit_columns _ HR) as (V0 & V1 & _).
  destruct (g_cur_components R0 R) as [Ex Ey].
  destruct (cauchy_schwarz3 _ _ U2 V0) as [Lx Ux].
  destruct (cauchy_schwarz3 _ _ U2 V1) as [Ly Uy].
  repeat split; lra.
Qed.

(** A shaped component in [[-1, 1]], scaled by [g * gain]. *)
Lemma acc_component (v dz g gain : Q) :
  0 <= dz -> dz < 1 -> 0 <= g -> 0 <= gain -> -1 <= v -> v <= 1 ->
  Qabs (- Ball.applyDeadzone v dz * g * gain) <= g * gain.
Proof.
  intros Hdz H1 Hg Hgain Hlo Hhi.
  pose proof (applyDeadzone_unit v dz Hdz H1 Hlo Hhi) as [S1 S2].
  set (s := Ball.applyDeadzone v dz) in *.
  assert (Hgg : 0 <= g * gain) by nra.
  apply Qabs_case; intros; nra.
Qed.

(** X3. Between two orthogonal rotation matrices, with a deadzone in
    [[0, 1)], the planar acceleration never exceeds [g * gain] on either
    axis, whatever the tilt. *)
Theorem acc_bounded (R : Mat3) (b : Ball.t) :
  orthogonal (Ball.R0 b) -> orthogonal R ->
  0 <= Ball.deadzone b -> Ball.deadzone b < 1 ->
  0 <= Ball.g b -> 0 <= Ball.gain b ->
  Qabs (X (Ball.acc R b)) <= Ball.g b * Ball.gain b /\
  Qabs (Y (Ball.acc R b)) <= Ball.g b * Ball.gain b.
Proof.
  intros H0 HR Hdz H1 Hg Hgain.
  destruct (g_cur_unit (Ball.R0 b) R H0 HR) as [[Lx Ux] [Ly Uy]].
  unfold Ball.acc. cbn [X Y].
  split; by apply acc_component.
Qed.

Lemma orthogonal_eye : orthogonal eye.
Proof. repeat split; vm_compute; reflexivity. Qed.

Lemma acc_bounded_witness :
  orthogonal (Ball.R0 main_ball) /\ orthogonal (Rodrigues_rational tilt_east) /\
  0 <= Ball.deadzone main_ball /\ Ball.deadzone main_ball < 1 /\
  0 <= Ball.g main_ball /\ 0 <= Ball.gain main_ball /\
  Qabs (X (Ball.acc (Rodrigues_rational tilt_east) main_ball))
  <= Ball.g main_ball * Ball.gain main_ball.
Proof.
  assert (H1 : orthogonal (Ball.R0 main_ball)) by exact orthogonal_eye.
  assert (H2 : orthogonal (Rodrigues_rational tilt_east))
    by apply Rodrigues_rational_orthogonal.
  assert (H3 : 0 <= Ball.deadzone main_ball) by qdecide.
  assert (H4 : Ball.deadzone main_ball < 1) by qdecide.
  assert (H5 : 0 <= Ball.g main_ball) by qdecide.
  assert (H6 : 0 <= Ball.gain main_ball) by qdecide.
  split; [exact H1|]. split; [exact H2|]. split; [exact H3|]. split; [exact H4|].
  split; [exact H5|]. split; [exact H6|].
  exact (proj1 (acc_bounded (Rodrigues_rational tilt_east) main_ball H1 H2 H3 H4 H5 H6)).
Defined.

(** ** The speed of the ball *)

(** The rebound never speeds the ball up. *)
Lemma collide_axis_speed (wlo whi : bool) (lo hi r n v : Q) :
  Qabs (collide_axis wlo whi lo hi r n v).2 <= Qabs v.
Proof.
  unfold collide_axis, Ball.bounce.
  destruct (wlo && Qltb (n - r) lo); [|destruct (whi && Qltb hi (n + r))];
    cbn [snd]; try lra;
    apply Qabs_case; intros; apply Qabs_case; intros; lra.
Qed.

Lemma latch_settings_ok (R : Mat3) (b : Ball.t) :
  orthogonal R -> settings_ok b -> settings_ok (Ball.latch R b).
Proof.
  intros HR (H0 & H). unfold Ball.latch.
  destruct (Ball.hasFlatRef b); [by split|]. by split.
Qed.

Section Speed.

Variable Rodrigues : Vec3 -> Mat3.
Hypothesis Rodrigues_orthogonal : forall rvec, orthogonal (Rodrigues rvec).

(** One call of [update]: the velocity gains at most [g * gain * dt] on
    each axis before the damping by 0.85. *)
Lemma update_speed dt rvec m b V :
  settings_ok b -> 0 <= dt -> speed_le V b ->
  let b' := Ball.update Rodrigues dt rvec m b in
  settings_ok b' /\
  Ball.g b' = Ball.g b /\ Ball.gain b' = Ball.gain b /\
  speed_le (0.85 * (V + Ball.g b * Ball.gain b * dt)) b'.
Proof.
  intros Hs Hdt [Hx Hy] b'.
  destruct (update_fields Rodrigues dt rvec m b)
    as (_ & _ & Evx & Evy & _ & _ & ER & Eg & Egain & Edz).
  fold b' in Evx, Evy, ER, Eg, Egain, Edz.
  pose proof (latch_settings_ok (Rodrigues rvec) b (Rodrigues_orthogonal rvec) Hs) as Hs1.
  destruct (latch_settings (Rodrigues rvec) b) as (Lg & Lgain & Ldz).
  set (b1 := Ball.latch (Rodrigues rvec) b) in *.
  assert (Hs' : settings_ok b').
  { destruct Hs1 as (A & B & C & D & E). unfold settings_ok.
    rewrite ER, Eg, Egain, Edz. rewrite Lg, Lgain, Ldz in *. done. }
  split; [exact Hs'|]. split; [exact Eg|]. split; [exact Egain|].
  destruct Hs1 as (A & B & C & D & E).
  destruct (g_cur_unit (Ball.R0 b1) (Rodrigues rvec) A (Rodrigues_orthogonal rvec))
    as [[Lx Ux] [Ly Uy]].
  pose proof (acc_component _ _ _ _ B C D E Lx Ux) as Ax.
  pose proof (acc_component _ _ _ _ B C D E Ly Uy) as Ay.
  change (- Ball.applyDeadzone (c0 (Ball.g_cur (Ball.R0 b1) (Rodrigues rvec)))
              (Ball.deadzone b1) * Ball.g b1 * Ball.gain b1)
    with (X (Ball.acc (Rodrigues rvec) b1)) in Ax.
  change (- Ball.applyDeadzone (c1 (Ball.g_cur (Ball.R0 b1) (Rodrigues rvec)))
              (Ball.deadzone b1) * Ball.g b1 * Ball.gain b1)
    with (Y (Ball.acc (Rodrigues rvec) b1)) in Ay.
  rewrite Lg, Lgain in Ax, Ay. rewrite Lg in D. rewrite Lgain in E.
  assert (Ev : Ball.vel b1 = Ball.vel b).
  { unfold b1, Ball.latch. by destruct (Ball.hasFlatRef b). }
  set (a := Ball.acc (Rodrigues rvec) b1) in *.
  set (A0 := Ball.g b * Ball.gain b) in *.
  assert (Hvx : Qabs (X (Ball.integrate_vel dt a b1)) <= 0.85 * (V + A0 * dt)).
  { unfold Ball.integrate_vel. cbn [X Y]. rewrite Ev.
    revert Hx Ax. do 3 (apply Qabs_case; intros ?); intros; nra. }
  assert (Hvy : Qabs (Y (Ball.integrate_vel dt a b1)) <= 0.85 * (V + A0 * dt)).
  { unfold Ball.integrate_vel. cbn [X Y]. rewrite Ev.
    revert Hy Ay. do 3 (apply Qabs_case; intros ?); intros; nra. }
  split.
  - rewrite Evx, collide_x_axis. eapply Qle_trans; [apply collide_axis_speed|exact Hvx].
  - rewrite Evy, collide_y_axis. eapply Qle_trans; [apply collide_axis_speed|exact Hvy].
Qed.

End Speed.

(** The time step of a frame lies in [[1/500, 1/20]], whatever the clock
    gave. *)
Lemma clamp_dt_range (dt : Q) : 1 / 500 <= clamp_dt dt /\ clamp_dt dt <= 1 / 20.
Proof.
  unfold clamp_dt, std_max, std_min.
  change (1 / 20) with (1 # 20). change (1 / 500) with (1 # 500).
  qcases; split; lra.
Qed.

Lemma setFlatReference_settings_ok (Rodrigues : Vec3 -> Mat3) rvec b :
  orthogonal (Rodrigues rvec) -> settings_ok b ->
  settings_ok (Ball.setFlatReference Rodrigues rvec b).
Proof. intros HR (_ & H). by split. Qed.

(** One iteration of the frame loop keeps the bound
    [17/60 * g * gain] on the speed along each axis. *)
Lemma frame_speed (Rodrigues : Vec3 -> Mat3) poseOk keyR dt rvec m st (g gain : Q) :
  (forall rvec, orthogonal (Rodrigues rvec)) ->
  let inv b := settings_ok b /\ Ball.g b = g /\ Ball.gain b = gain /\
               speed_le ((17 # 60) * g * gain) b in
  inv (loop_ball st) ->
  inv (loop_ball (frame Rodrigues poseOk keyR (clamp_dt dt) rvec m st)).
Proof.
  intros HR inv Hst. unfold frame.
  set (b1 := if poseOk && negb (Ball.hasFlatRef (loop_ball st))
             then Ball.setFlatReference Rodrigues rvec (loop_ball st)
             else loop_ball st).
  assert (H1 : inv b1).
  { unfold b1. destruct (poseOk && negb (Ball.hasFlatRef (loop_ball st))); [|exact Hst].
    destruct Hst as (Hs & Hg & Hgain & Hv).
    split; [by apply setFlatReference_settings_ok|]. done. }
  destruct (if poseOk then true else loop_hasPose st); cbn [loop_ball]; [|exact H1].
  set (b2 := if keyR
             then Ball.with_vel (mkvec2 0 0) (Ball.setFlatReference Rodrigues rvec b1)
             else b1).
  assert (H2 : inv b2).
  { unfold b2. destruct keyR; [|exact H1].
    destruct H1 as (Hs & Hg & Hgain & Hv).
    split; [|split; [exact Hg|split; [exact Hgain|]]].
    - destruct (setFlatReference_settings_ok Rodrigues rvec b1 (HR rvec) Hs) as (A & B).
      split; [exact A|exact B].
    - destruct Hs as (_ & _ & _ & G1 & G2). rewrite Hg in G1. rewrite Hgain in G2.
      split; cbn [Ball.with_vel Ball.vel X Y];
        (change (Qabs 0) with 0); nra. }
  destruct H2 as (Hs & Hg & Hgain & Hv).
  destruct (clamp_dt_range dt) as [Hlo Hhi].
  change (1 / 20) with (1 # 20) in Hhi. change (1 / 500) with (1 # 500) in Hlo.
  destruct (update_speed Rodrigues HR (clamp_dt dt) rvec m b2 _ Hs ltac:(lra) Hv)
    as (Hs' & Hg' & Hgain' & [Hx Hy]).
  rewrite Hg, Hgain in *.
  split; [exact Hs'|]. split; [exact Hg'|]. split; [exact Hgain'|].
  destruct Hs as (_ & _ & _ & G1 & G2). rewrite Hg in G1. rewrite Hgain in G2.
  assert (0 <= g * gain) by nra.
  split; (eapply Qle_trans; [eassumption|]); nra.
Qed.

(** X4. In the frame loop the speed of the ball along each axis never
    exceeds [17/60 * g * gain] (2.78 m/s with the default settings), if
    it does not at the start: the clamp of the time step to at most 1/20 s
    and the damping by 0.85 per frame bound what gravity can add. *)
Theorem main_loop_speed_bounded (Rodrigues : Vec3 -> Mat3) m inputs st :
  (forall rvec, orthogonal (Rodrigues rvec)) ->
  settings_ok (loop_ball st) ->
  let V := (17 # 60) * Ball.g (loop_ball st) * Ball.gain (loop_ball st) in
  speed_le V (loop_ball st) ->
  speed_le V (loop_ball (main_loop Rodrigues m inputs st)).
Proof.
  intros HR Hs V Hv.
  assert (Hinv : forall st' : loop_state,
            (settings_ok (loop_ball st') /\
             Ball.g (loop_ball st') = Ball.g (loop_ball st) /\
             Ball.gain (loop_ball st') = Ball.gain (loop_ball st) /\
             speed_le V (loop_ball st')) ->
            speed_le V (loop_ball (main_loop Rodrigues m inputs st'))).
  { unfold main_loop.
    induction inputs as [|[[[poseOk keyR] dt] rvec] inputs IH]; intros st' Hinv.
    - apply Hinv.
    - cbn [fold_left]. apply IH. by apply frame_speed. }
  apply Hinv. done.
Qed.

Lemma main_loop_speed_bounded_witness :
  let st := mkLoop false main_ball in
  let inputs := [(true, false, 1 # 2, tilt_east); (false, true, 0, mkVec3 (1 # 2) 0 0);
                 (true, false, 1 # 60, tilt_east)] in
  (forall rvec, orthogonal (Rodrigues_rational rvec)) /\
  settings_ok (loop_ball st) /\
  speed_le ((17 # 60) * Ball.g (loop_ball st) * Ball.gain (loop_ball st)) (loop_ball st) /\
  speed_le ((17 # 60) * Ball.g (loop_ball st) * Ball.gain (loop_ball st))
           (loop_ball (main_loop Rodrigues_rational main_maze inputs st)).
Proof.
  intros st inputs.
  assert (H1 : forall rvec, orthogonal (Rodrigues_rational rvec))
    by exact Rodrigues_rational_orthogonal.
  assert (H2 : settings_ok (loop_ball st)).
  { split; [exact orthogonal_eye|]. repeat split; qdecide. }
  assert (H3 : speed_le ((17 # 60) * Ball.g (loop_ball st) * Ball.gain (loop_ball st))
                        (loop_ball st)) by (split; qdecide).
  split; [exact H1|]. split; [exact H2|]. split; [exact H3|].
  exact (main_loop_speed_bounded Rodrigues_rational main_maze inputs st H1 H2 H3).
Defined.

(** ** The board held level *)

Lemma Qpower_succ (a : Q) (n : nat) : a ^ Z.of_nat (S n) == a * a ^ Z.of_nat n.
Proof.
  destruct n as [|n]; [simpl; ring|].
  change (Z.of_nat (S (S n))) with (Z.pos (Pos.succ (Pos.of_succ_nat n))).
  change (Z.of_nat (S n)) with (Z.pos (Pos.of_succ_nat n)).
  cbn [Qpower]. unfold Qpower_positive.
  apply pow_pos_succ; [apply Q_Setoid|apply Qmult_comp|intros; ring].
Qed.

Lemma Qpower_nat_nonneg (a : Q) (n : nat) : 0 <= a -> 0 <= a ^ Z.of_nat n.
Proof.
  intros Ha. induction n as [|n IH]; [simpl; lra|].
  rewrite Qpower_succ. nra.
Qed.

Section Level.

Variable Rodrigues : Vec3 -> Mat3.

(** With a reference latched and the tilt inside the deadzone, a call of
    [update] only damps the velocity, whatever the time step. *)
Lemma update_level dt rvec m b :
  Ball.hasFlatRef b = true ->
  level (Ball.R0 b) (Rodrigues rvec) (Ball.deadzone b) ->
  let b' := Ball.update Rodrigues dt rvec m b in
  Ball.hasFlatRef b' = true /\ Ball.R0 b' = Ball.R0 b /\
  Ball.deadzone b' = Ball.deadzone b /\
  Qabs (X (Ball.vel b')) <= 0.85 * Qabs (X (Ball.vel b)) /\
  Qabs (Y (Ball.vel b')) <= 0.85 * Qabs (Y (Ball.vel b)).
Proof.
  intros Hf [Hx Hy] b'.
  destruct (update_fields Rodrigues dt rvec m b)
    as (_ & _ & Evx & Evy & _ & Ef & ER & _ & _ & Edz).
  fold b' in Evx, Evy, Ef, ER, Edz.
  rewrite (latch_latched (Rodrigues rvec) b Hf) in Evx, Evy, ER.
  destruct (acc_inside_deadzone (Rodrigues rvec) b Hx Hy) as [Ax Ay].
  split; [exact Ef|]. split; [exact ER|]. split; [exact Edz|].
  set (a := Ball.acc (Rodrigues rvec) b) in *.
  assert (Vx : X (Ball.integrate_vel dt a b) == X (Ball.vel b) * 0.85).
  { unfold Ball.integrate_vel. cbn [X Y]. rewrite Ax. ring. }
  assert (Vy : Y (Ball.integrate_vel dt a b) == Y (Ball.vel b) * 0.85).
  { unfold Ball.integrate_vel. cbn [X Y]. rewrite Ay. ring. }
  split.
  - rewrite Evx, collide_x_axis. eapply Qle_trans; [apply collide_axis_speed|].
    rewrite Vx. apply Qabs_case; intros; apply Qabs_case; intros; lra.
  - rewrite Evy, collide_y_axis. eapply Qle_trans; [apply collide_axis_speed|].
    rewrite Vy. apply Qabs_case; intros; apply Qabs_case; intros; lra.
Qed.

(** X5. Once a reference is latched, as long as the board is held with
    its tilt inside the deadzone, the ball slows down geometrically: after
    [n] calls of [update], whatever their time steps and whatever walls
    are hit, each component of the velocity is at most [0.85 ^ n] times
    what it was. *)
Theorem level_board_decay m (inputs : list (Q * Vec3)) b :
  Ball.hasFlatRef b = true ->
  Forall (fun i => level (Ball.R0 b) (Rodrigues i.2) (Ball.deadzone b)) inputs ->
  let b' := run Rodrigues m inputs b in
  let k := 0.85 ^ Z.of_nat (length inputs) in
  Qabs (X (Ball.vel b')) <= k * Qabs (X (Ball.vel b)) /\
  Qabs (Y (Ball.vel b')) <= k * Qabs (Y (Ball.vel b)).
Proof.
  intros Hf Hall. cbv zeta. revert b Hf Hall. unfold run.
  induction inputs as [|[dt rvec] inputs IH]; intros b Hf Hall.
  - cbn [fold_left length]. change (0.85 ^ Z.of_nat 0) with 1. split; lra.
  - apply Forall_cons in Hall as [Hi Hall]. cbn [fst snd] in Hi.
    destruct (update_level dt rvec m b Hf Hi) as (Hf' & ER & Edz & Hx & Hy).
    cbn [fold_left fst snd length]. rewrite Qpower_succ.
    set (b1 := Ball.update Rodrigues dt rvec m b) in *.
    rewrite <- ER, <- Edz in Hall.
    destruct (IH b1 Hf' Hall) as [IHx IHy].
    pose proof (Qpower_nat_nonneg 0.85 (length inputs) ltac:(lra)) as Hk.
    set (k := 0.85 ^ Z.of_nat (length inputs)) in *.
    split; (eapply Qle_trans; [eassumption|]); nra.
Qed.

End Level.

Lemma level_board_decay_witness :
  let b := Ball.mk (mkvec2 (1 # 10) (1 # 10)) (mkvec2 1 (-2)) 0.010 true eye 9.81 1 0.03 in
  let inputs := [(1 # 60, mkVec3 0 0 0); (1 # 20, mkVec3 0 (1 # 100) 0)] in
  Ball.hasFlatRef b = true /\
  Forall (fun i => level (Ball.R0 b) (Rodrigues_rational i.2) (Ball.deadzone b)) inputs /\
  Qabs (X (Ball.vel (run Rodrigues_rational main_maze inputs b)))
  <= 0.85 ^ Z.of_nat (length inputs) * Qabs (X (Ball.vel b)).
Proof.
  intros b inputs.
  assert (H1 : Ball.hasFlatRef b = true) by reflexivity.
  assert (H2 : Forall (fun i => level (Ball.R0 b) (Rodrigues_rational i.2)
                                      (Ball.deadzone b)) inputs).
  { repeat constructor; qdecide. }
  split; [exact H1|]. split; [exact H2|].
  exact (proj1 (level_board_decay Rodrigues_rational main_maze inputs b H1 H2)).
Defined.

(** ** A cell with four walls *)

(** The cell index of a coordinate that lies in the column [n]. *)
Lemma Qtrunc_unique (x cw : Q) (n : Z) :
  0 < cw -> (0 <= n)%Z -> inject_Z n * cw <= x -> x < inject_Z (n + 1) * cw ->
  Qtrunc (x / cw) = n.
Proof.
  intros Hcw Hn Hlo Hhi.
  assert (Hq : x / cw * cw == x) by (field; lra).
  set (q := x / cw) in *.
  assert (H0 : 0 <= inject_Z n) by (change 0 with (inject_Z 0); by rewrite <- Zle_Qle).
  rewrite inject_Z_plus in Hhi. change (inject_Z 1) with 1 in Hhi.
  assert (Hq0 : inject_Z n <= q) by nra.
  assert (Hq1 : q < inject_Z n + 1) by nra.
  destruct (Qtrunc_nonneg q ltac:(lra)) as (_ & T0 & T1).
  assert (A : (Qtrunc q < n + 1)%Z).
  { rewrite Zlt_Qlt, inject_Z_plus. change (inject_Z 1) with 1. lra. }
  assert (B : (n < Qtrunc q + 1)%Z).
  { rewrite Zlt_Qlt, inject_Z_plus. change (inject_Z 1) with 1. lra. }
  lia.
Qed.

Section ClosedCell.

Variable Rodrigues : Vec3 -> Mat3.



End ClosedCell.


(** ** The ball at rest *)

(** X7. [reset] puts the ball at rest at the centre of the cell (0,0) and
    keeps the radius and the reference; if the ball fits in a cell, it then
    touches no wall plane of that cell and is within the bounds of the
    maze. *)
Theorem reset_centre m b :
  0 < Maze.cellW m -> 0 < Maze.cellH m ->
  let b' := Ball.reset m b in
  (Ball.gx m b' = 0%Z /\ Ball.gy m b' = 0%Z) /\
  (X (Ball.vel b') == 0 /\ Y (Ball.vel b') == 0) /\
  (Ball.radius b' = Ball.radius b /\ Ball.hasFlatRef b' = Ball.hasFlatRef b /\
   Ball.R0 b' = Ball.R0 b) /\
  (fits_in_cell m b -> held_in_cell m 0 0 b') /\
  (fits_in_cell m b -> (1 <= Maze.w m)%Z -> (1 <= Maze.h m)%Z -> within_bounds m b').
Proof.
  intros HW HH b'. unfold b', Ball.reset, Ball.gx, Ball.gy, held_in_cell, within_bounds,
    mazeWidthUnits, mazeHeightUnits, Ball.with_vel, Ball.with_pos.
  cbn [Ball.pos Ball.vel Ball.radius Ball.hasFlatRef Ball.R0 X Y].
  change (inject_Z (0 + 1)) with 1. change (inject_Z 0) with 0.
  split; [|split; [|split; [|split]]].
  - split; apply Qtrunc_unique; try done;
      change (inject_Z (0 + 1)) with 1; change (inject_Z 0) with 0; lra.
  - split; reflexivity.
  - done.
  - intros (Hr & HcW & HcH). repeat split; lra.
  - intros (Hr & HcW & HcH) Hw Hh.
    assert (1 <= inject_Z (Maze.w m)) by (change 1 with (inject_Z 1); by rewrite <- Zle_Qle).
    assert (1 <= inject_Z (Maze.h m)) by (change 1 with (inject_Z 1); by rewrite <- Zle_Qle).
    repeat split; nra.
Qed.

Lemma reset_centre_witness :
  0 < Maze.cellW main_maze /\ 0 < Maze.cellH main_maze /\
  Ball.gx main_maze (Ball.reset main_maze (Ball.create 0.010)) = 0%Z /\
  Ball.gy main_maze (Ball.reset main_maze (Ball.create 0.010)) = 0%Z.
Proof.
  assert (H1 : 0 < Maze.cellW main_maze) by qdecide.
  assert (H2 : 0 < Maze.cellH main_maze) by qdecide.
  split; [exact H1|]. split; [exact H2|].
  exact (proj1 (reset_centre main_maze (Ball.create 0.010) H1 H2)).
Defined.

(** Without a wall plane crossed, the collision leaves the coordinate and
    the velocity as they are. *)
Lemma collide_axis_clear (wlo whi : bool) (lo hi r n v : Q) :
  lo + r <= n -> n <= hi - r -> collide_axis wlo whi lo hi r n v = (n, v).
Proof.
  intros Hlo Hhi. unfold collide_axis.
  assert (E1 : Qltb (n - r) lo = false).
  { destruct (Qltb (n - r) lo) eqn:E; [|done]. apply Qltb_lt in E. lra. }
  assert (E2 : Qltb hi (n + r) = false).
  { destruct (Qltb hi (n + r)) eqn:E; [|done]. apply Qltb_lt in E. lra. }
  rewrite E1, E2, !andb_false_r. done.
Qed.

Section Rest.

Variable Rodrigues : Vec3 -> Mat3.

(** X8. Rest is a fixed point of [update]: a ball at rest between the wall
    planes of its cell and within the bounds of the maze, on a board whose
    tilt is inside the deadzone, keeps its position and stays at rest. *)
Theorem rest_is_fixed_point dt rvec m b :
  Ball.hasFlatRef b = true ->
  level (Ball.R0 b) (Rodrigues rvec) (Ball.deadzone b) ->
  X (Ball.vel b) == 0 -> Y (Ball.vel b) == 0 ->
  held_in_cell m (Ball.gx m b) (Ball.gy m b) b -> within_bounds m b ->
  let b' := Ball.update Rodrigues dt rvec m b in
  (X (Ball.pos b') == X (Ball.pos b) /\ Y (Ball.pos b') == Y (Ball.pos b)) /\
  (X (Ball.vel b') == 0 /\ Y (Ball.vel b') == 0).
Proof.
  intros Hf [Lx Ly] Vx Vy [[Cx0 Cx1] [Cy0 Cy1]] [[Bx0 Bx1] [By0 By1]] b'.
  destruct (update_fields Rodrigues dt rvec m b) as (Ex & Ey & Evx & Evy & _).
  fold b' in Ex, Ey, Evx, Evy.
  rewrite (latch_latched (Rodrigues rvec) b Hf) in Ex, Ey, Evx, Evy.
  destruct (acc_inside_deadzone (Rodrigues rvec) b Lx Ly) as [Ax Ay].
  set (a := Ball.acc (Rodrigues rvec) b) in *.
  assert (Wx : X (Ball.integrate_vel dt a b) == 0).
  { unfold Ball.integrate_vel. cbn [X Y]. rewrite Ax, Vx. ring. }
  assert (Wy : Y (Ball.integrate_vel dt a b) == 0).
  { unfold Ball.integrate_vel. cbn [X Y]. rewrite Ay, Vy. ring. }
  set (v := Ball.integrate_vel dt a b) in *.
  assert (Nx : X (Ball.tentative dt v b) == X (Ball.pos b)).
  { unfold Ball.tentative. cbn [X Y]. rewrite Wx. ring. }
  assert (Ny : Y (Ball.tentative dt v b) == Y (Ball.pos b)).
  { unfold Ball.tentative. cbn [X Y]. rewrite Wy. ring. }
  set (np := Ball.tentative dt v b) in *.
  rewrite collide_x_axis in Ex, Evx. rewrite collide_y_axis in Ey, Evy.
  unfold Ball.cellLeft, Ball.cellRight, Ball.cellTop, Ball.cellBottom in *.
  rewrite collide_axis_clear in Ex, Evx by lra.
  rewrite collide_axis_clear in Ey, Evy by lra.
  cbn [fst snd] in *. unfold mazeWidthUnits, mazeHeightUnits in *.
  split; [|split; [by rewrite Evx|by rewrite Evy]].
  rewrite Ex, Ey. unfold Ball.clamp, Ball.maxW, Ball.maxH. split; qcases; lra.
Qed.

End Rest.

Lemma rest_is_fixed_point_witness :
  let b := Ball.setFlatReference Rodrigues_rational (mkVec3 0 0 0) main_ball in
  let rvec := mkVec3 0 (1 # 100) 0 in
  Ball.hasFlatRef b = true /\
  level (Ball.R0 b) (Rodrigues_rational rvec) (Ball.deadzone b) /\
  X (Ball.vel b) == 0 /\ Y (Ball.vel b) == 0 /\
  held_in_cell main_maze (Ball.gx main_maze b) (Ball.gy main_maze b) b /\
  within_bounds main_maze b /\
  X (Ball.pos (Ball.update Rodrigues_rational (1 # 60) rvec main_maze b)) == X (Ball.pos b).
Proof.
  intros b rvec.
  assert (H1 : Ball.hasFlatRef b = true) by reflexivity.
  assert (H2 : level (Ball.R0 b) (Rodrigues_rational rvec) (Ball.deadzone b))
    by (split; qdecide).
  assert (H3 : X (Ball.vel b) == 0) by reflexivity.
  assert (H4 : Y (Ball.vel b) == 0) by reflexivity.
  assert (H5 : held_in_cell main_maze (Ball.gx main_maze b) (Ball.gy main_maze b) b)
    by (repeat split; qdecide).
  assert (H6 : within_bounds main_maze b) by (repeat split; qdecide).
  split; [exact H1|]. split; [exact H2|]. split; [exact H3|]. split; [exact H4|].
  split; [exact H5|]. split; [exact H6|].
  exact (proj1 (proj1 (rest_is_fixed_point Rodrigues_rational (1 # 60) rvec main_maze b
                         H1 H2 H3 H4 H5 H6))).
Defined.

(** * Further properties of the maze *)

Local Open Scope Z_scope.

(** The clamped coordinates are in the grid, and the clamp leaves the
    coordinates of the grid alone. *)
Lemma clamp_in_grid (m : Maze.t) (x y : Z) :
  well_formed m -> in_grid m (Maze.clamp_x m x, Maze.clamp_y m y).
Proof.
  intros (Hw & Hh & _). unfold in_grid, Maze.clamp_x, Maze.clamp_y. cbn [fst snd].
  repeat case_match; lia.
Qed.

Lemma clamp_id (m : Maze.t) (x y : Z) :
  in_grid m (x, y) -> Maze.clamp_x m x = x /\ Maze.clamp_y m y = y.
Proof.
  intros [Ha Hb]. cbn [fst snd] in *. unfold Maze.clamp_x, Maze.clamp_y.
  repeat case_match; lia.
Qed.

Lemma index_clamp (m : Maze.t) (x y : Z) :
  well_formed m ->
  Maze.index m (Maze.clamp_x m x) (Maze.clamp_y m y) = Maze.index m x y.
Proof.
  intros Hwf. destruct (clamp_id m _ _ (clamp_in_grid m x y Hwf)) as [Ex Ey].
  unfold Maze.index. by rewrite Ex, Ey.
Qed.

Lemma at_lookup (m : Maze.t) (x y : Z) :
  well_formed m -> Maze.grid m !! Maze.index m x y = Some (Maze.at_ m x y).
Proof.
  intros Hwf.
  pose proof (grid_lookup m _ Hwf (clamp_in_grid m x y Hwf)) as Hl.
  cbn [fst snd] in Hl. rewrite index_clamp in Hl by done.
  unfold Maze.at_. by rewrite Hl.
Qed.

(** X9. [at(x, y)] never reads outside the grid: for any coordinates, on
    a maze with at least one cell whose grid has [w * h] cells, the index
    computed is that of a cell of the grid, the cell returned is the one
    at the coordinates pulled back to the nearest row and column, and
    coordinates in the grid are used as they are. *)
Theorem at_in_range (m : Maze.t) (x y : Z) :
  well_formed m ->
  in_grid m (Maze.clamp_x m x, Maze.clamp_y m y) /\
  Maze.grid m !! Maze.index m x y = Some (Maze.at_ m x y) /\
  Maze.index m x y = Z.to_nat (Maze.clamp_y m y * Maze.w m + Maze.clamp_x m x) /\
  Maze.at_ m x y = Maze.at_ m (Maze.clamp_x m x) (Maze.clamp_y m y) /\
  (in_grid m (x, y) -> Maze.clamp_x m x = x /\ Maze.clamp_y m y = y).
Proof.
  intros Hwf.
  split; [by apply clamp_in_grid|]. split; [by apply at_lookup|].
  split; [done|]. split; [|apply clamp_id].
  unfold Maze.at_. by rewrite index_clamp.
Qed.

Lemma at_in_range_witness :
  well_formed main_maze /\
  Maze.index main_maze 11 (-3) = 7%nat /\
  Maze.grid main_maze !! Maze.index main_maze 11 (-3) = Some (Maze.at_ main_maze 11 (-3)).
Proof.
  assert (H : well_formed main_maze) by (repeat split; vm_compute; congruence).
  split; [exact H|].
  destruct (at_in_range main_maze 11 (-3) H) as (_ & E1 & E2 & _).
  split; [exact E2|exact E1].
Defined.

(** ** A second call of [generate] *)

(** An assignment through [at(x, y)] that does not change the cell leaves
    the maze as it is. *)
Lemma set_at_id (m : Maze.t) (x y : Z) (f : Maze.Cell -> Maze.Cell) :
  well_formed m -> f (Maze.at_ m x y) = Maze.at_ m x y -> Maze.set_at m x y f = m.
Proof.
  intros Hwf Hf. pose proof (at_lookup m x y Hwf) as Hl.
  destruct m as [w h cw ch wt grid]. unfold Maze.set_at. cbn [Maze.w Maze.h Maze.cellW
    Maze.cellH Maze.wallThick Maze.grid] in *. f_equal.
  apply list_eq. intros i.
  destruct (decide (i = Maze.index (Maze.mk w h cw ch wt grid) x y)) as [->|Hne].
  - rewrite list_lookup_alter_eq, Hl. cbn [fmap option_fmap option_map]. congruence.
  - by rewrite list_lookup_alter_ne.
Qed.

(** With every cell visited, no cell has a neighbour left to carve to. *)
Lemma neighbors_all_visited (m : Maze.t) (cx cy : Z) :
  (forall p, in_grid m p -> Maze.visited (cell_at m p) = true) ->
  Maze.neighbors m cx cy = [].
Proof.
  intros Hall. destruct (Maze.neighbors m cx cy) as [|q l] eqn:E; [done|].
  assert (Hq : In q (Maze.neighbors m (cx, cy).1 (cx, cy).2))
    by (cbn [fst snd]; rewrite E; by left).
  apply in_neighbors in Hq as (_ & Hin & Hfr). unfold fresh in Hfr.
  rewrite (Hall q Hin) in Hfr. discriminate.
Qed.

Section Regenerate.

Variable rng : Type.
Variable srand : Z -> rng -> rng.
Variable rand : rng -> Z * rng.

(** X10. [generate] never resets the [visited] marks, so it carves a maze
    once only: on a maze whose cells are all marked, as [generate] leaves
    them, a call changes no cell and draws no random number; it only
    reseeds the generator. *)
Theorem generate_visited_noop (now : Z) (g : rng) (m : Maze.t) :
  well_formed m ->
  (forall p, in_grid m p -> Maze.visited (cell_at m p) = true) ->
  Maze.generate rng srand rand now g m = Some (m, srand (now mod 2 ^ 32) g).
Proof.
  intros Hwf Hall. unfold Maze.generate.
  assert (H00 : in_grid m (0, 0)) by (destruct Hwf as (? & ? & _); split; simpl; lia).
  rewrite set_at_id; [|done|].
  2:{ pose proof (Hall _ H00) as Hv. unfold cell_at in Hv. cbn [fst snd] in Hv.
      destruct (Maze.at_ m 0 0) as [a b c d v]. cbn in Hv. by rewrite Hv. }
  destruct Hwf as (Hw & Hh & Hlen).
  destruct (length (Maze.grid m)) as [|n] eqn:En; [lia|].
  replace (2 * S n)%nat with (S (S (2 * n))) by lia.
  cbn [Maze.generate_loop]. by rewrite neighbors_all_visited.
Qed.

End Regenerate.

Lemma generate_visited_noop_witness :
  let m := Maze.mk 2 1 1 1 0.1 [Maze.mkCell true true false true true;
                                Maze.mkCell true true true false true] in
  well_formed m /\
  (forall p, in_grid m p -> Maze.visited (cell_at m p) = true) /\
  Maze.generate Z lcg_srand lcg_rand 1700000000 0 m
  = Some (m, lcg_srand (1700000000 mod 2 ^ 32) 0).
Proof.
  intros m.
  assert (H1 : well_formed m) by (repeat split; vm_compute; congruence).
  assert (H2 : forall p, in_grid m p -> Maze.visited (cell_at m p) = true).
  { intros [x y] [Hx Hy]. cbn [fst snd Maze.w Maze.h m] in Hx, Hy.
    assert (y = 0) as -> by lia.
    assert (x = 0 \/ x = 1) as [-> | ->] by lia; reflexivity. }
  split; [exact H1|]. split; [exact H2|].
  exact (generate_visited_noop Z lcg_srand lcg_rand 1700000000 0 m H1 H2).
Defined.

(** ** No sealed cell *)


Section Sealed.

Variable rng : Type.
Variable srand : Z -> rng -> rng.
Variable rand : rng -> Z * rng.


End Sealed.


(** ** [generate] on any maze *)

Lemma only_opened_refl (m : Maze.t) : only_opened m m.
Proof. by split. Qed.

Lemma only_opened_trans (m1 m2 m3 : Maze.t) :
  only_opened m1 m2 -> only_opened m2 m3 -> only_opened m1 m3.
Proof.
  intros [(Hw & Hh & HcW & HcH & Ht) H12] [(Hw' & Hh' & HcW' & HcH' & Ht') H23].
  split; [repeat split; congruence|].
  intros p Hp. assert (Hp2 : in_grid m2 p) by (unfold in_grid in *; by rewrite Hw, Hh).
  destruct (H12 p Hp) as [A1 B1]. destruct (H23 p Hp2) as [A2 B2].
  split; [intros d Hd; by apply A1, A2|intros Hv; by apply B2, B1].
Qed.

Lemma only_opened_push (m : Maze.t) (p : Z * Z) (d : side) :
  well_formed m -> in_grid m p -> in_grid m (move d p) -> only_opened m (push m p d).
Proof.
  intros Hwf Hp Hn. split.
  - unfold push. rewrite carve_move. done.
  - intros q Hq. split.
    + intros d'. rewrite push_wall by done. by case_decide.
    + rewrite push_visited by done. by case_decide.
Qed.

Lemma only_opened_mark (m : Maze.t) (p : Z * Z) :
  well_formed m -> in_grid m p ->
  only_opened m (Maze.set_at m p.1 p.2 (Maze.set_visited true)).
Proof.
  intros Hwf Hp. split; [done|]. intros q Hq.
  destruct (decide (p = q)) as [<-|Hne].
  - rewrite cell_at_set_same by done. split; [intros d; by rewrite wall_set_visited|done].
  - rewrite cell_at_set_other by done. done.
Qed.

(** A marked cell is not counted. *)
Lemma count_unvisited_lt (m : Maze.t) (p : Z * Z) :
  well_formed m -> in_grid m p -> Maze.visited (cell_at m p) = true ->
  (count_unvisited m < length (Maze.grid m))%nat.
Proof.
  intros Hwf Hp Hv. pose proof (grid_lookup m p Hwf Hp) as Hl.
  unfold count_unvisited. revert Hl. generalize (Maze.index m p.1 p.2) as i.
  generalize (cell_at m p) Hv. generalize (Maze.grid m). clear.
  intros l c Hv. induction l as [|a l IH]; intros i Hl; [done|].
  pose proof (filter_length_le (fun c => negb (Maze.visited c)) l) as Hle.
  destruct i as [|i]; cbn in Hl.
  - injection Hl as ->. cbn [List.filter]. rewrite Hv. cbn [negb length]. lia.
  - specialize (IH i Hl). cbn [List.filter]. destruct (negb (Maze.visited a)); cbn [length]; lia.
Qed.

Section GenerateAny.

Variable rng : Type.
Variable srand : Z -> rng -> rng.
Variable rand : rng -> Z * rng.

(** The loop ends within the fuel on any maze, whatever its flags. *)
Lemma generate_loop_total fuel :
  forall m stack g, well_formed m ->
    (forall p, p ∈ stack -> in_grid m p /\ Maze.visited (cell_at m p) = true) ->
    (2 * count_unvisited m + length stack <= fuel)%nat ->
    exists m' g', Maze.generate_loop rng rand fuel m stack g = Some (m', g') /\
                  well_formed m' /\ only_opened m m'.
Proof.
  induction fuel as [|fuel IH]; intros m stack g Hwf Hst Hfuel.
  - destruct stack; [|simpl in Hfuel; lia]. exists m, g.
    by split; [|split; [|apply only_opened_refl]].
  - destruct stack as [|[cx cy] rest].
    { exists m, g. by split; [|split; [|apply only_opened_refl]]. }
    simpl. destruct (Maze.neighbors m cx cy) as [|c nb] eqn:Enb.
    + apply IH; [done| |simpl in Hfuel; lia].
      intros p Hp. apply Hst. by right.
    + destruct (rand g) as [r g'].
      set (next := Maze.pick r (c :: nb)).
      assert (Hin : In next (Maze.neighbors m (cx, cy).1 (cx, cy).2)).
      { simpl. rewrite Enb. by apply pick_in. }
      apply in_neighbors in Hin as ([d Hd] & Hn & Hf).
      assert (Hpush : Maze.set_at (Maze.carve m cx cy next.1 next.2) next.1 next.2
                        (Maze.set_visited true) = push m (cx, cy) d).
      { unfold push. by rewrite <- Hd. }
      rewrite Hpush. rewrite Hd in Hn, Hf |- *.
      destruct (Hst (cx, cy)) as [Hp Hpv]; [by left|].
      pose proof (count_unvisited_push m (cx, cy) d Hwf Hp Hn Hpv Hf) as Hcnt.
      destruct (IH (push m (cx, cy) d) (move d (cx, cy) :: (cx, cy) :: rest) g')
        as (m' & g'' & E & Hwf' & Hoo).
      { by apply push_well_formed. }
      { intros q Hq. assert (Hqm : in_grid m q).
        { apply elem_of_cons in Hq as [->|Hq]; [done|]. by apply Hst. }
        split; [by apply push_in_grid|].
        rewrite push_visited by done. case_decide; [done|].
        apply elem_of_cons in Hq as [->|Hq]; [done|]. by apply Hst. }
      { simpl in *. lia. }
      exists m', g''. split; [done|]. split; [done|].
      eapply only_opened_trans; [|exact Hoo]. by apply only_opened_push.
Qed.

(** X12. [generate] terminates on every maze with at least one cell and a
    grid of [w * h] cells, whatever the wall flags and marks it starts
    from; it keeps the dimensions, raises no wall and removes no mark. *)
Theorem generate_total (now : Z) (g : rng) (m : Maze.t) :
  well_formed m ->
  exists m' g',
    Maze.generate rng srand rand now g m = Some (m', g') /\
    well_formed m' /\ only_opened m m'.
Proof.
  intros Hwf. unfold Maze.generate.
  assert (H00 : in_grid m (0, 0)) by (destruct Hwf as (? & ? & _); split; simpl; lia).
  set (m0 := Maze.set_at m 0 0 (Maze.set_visited true)).
  assert (Hwf0 : well_formed m0) by by apply set_at_well_formed.
  assert (Hv0 : Maze.visited (cell_at m0 (0, 0)) = true).
  { unfold m0. by rewrite (cell_at_set_same m (0, 0)). }
  assert (H00' : in_grid m0 (0, 0)) by done.
  pose proof (count_unvisited_lt m0 (0, 0) Hwf0 H00' Hv0) as Hlt.
  assert (Hlen : length (Maze.grid m0) = length (Maze.grid m)).
  { destruct Hwf as (_ & _ & ->). by destruct Hwf0 as (_ & _ & ->). }
  destruct (generate_loop_total (2 * length (Maze.grid m)) m0 [(0, 0)]
              (srand (now mod 2 ^ 32) g) Hwf0) as (m' & g' & E & Hwf' & Hoo).
  { intros p Hp. apply list_elem_of_singleton in Hp as ->. done. }
  { simpl. lia. }
  exists m', g'. split; [exact E|]. split; [exact Hwf'|].
  eapply only_opened_trans; [|exact Hoo]. by apply (only_opened_mark m (0, 0)).
Qed.

End GenerateAny.

Lemma generate_total_witness :
  let m := Maze.mk 2 1 1 1 0.1 [Maze.mkCell true false false true false;
                                Maze.mkCell false true true false true] in
  well_formed m /\
  exists m' g',
    Maze.generate Z lcg_srand lcg_rand 1700000000 0 m = Some (m', g') /\
    well_formed m' /\ only_opened m m'.
Proof.
  intros m.
  assert (H1 : well_formed m) by (repeat split; vm_compute; congruence).
  split; [exact H1|].
  exact (generate_total Z lcg_srand lcg_rand 1700000000 0 m H1).
Defined.

(** * Further properties of the smoothers *)

Local Open Scope Q_scope.

Section SmoothFrames.

Variable Rodrigues : Vec3 -> Mat3.
Variable RodriguesInv : Mat3 -> Vec3.
Variable quat_cast : glm_mat3 -> quat.
Variable mat3_cast : quat -> glm_mat3.
Variable slerp : quat -> quat -> Q -> quat.

Abbreviation frames := (smooth_frames Rodrigues RodriguesInv quat_cast mat3_cast slerp).

(** X13. The translation filter forgets its history geometrically: while
    the detected translation stays at [t], each call of [smooth] multiplies
    the distance from the stored translation to [t] by [1 - alphaPose] on
    every coordinate, whatever the rotations are; no call fails. *)
Theorem smooth_translation_converges (s : PoseSmoother.t) (rp tp t : Vec3)
    (rs : list Vec3) :
  PoseSmoother.hasPose s = true ->
  PoseSmoother.rPrev s = Some rp -> PoseSmoother.tPrev s = Some tp ->
  exists s' tp',
    frames s (map (fun r => (r, t)) rs) = Some s' /\
    PoseSmoother.hasPose s' = true /\
    PoseSmoother.alphaPose s' = PoseSmoother.alphaPose s /\
    PoseSmoother.tPrev s' = Some tp' /\
    Vec3_scaled ((1 - PoseSmoother.alphaPose s) ^ Z.of_nat (length rs))
                (Vec3_sub tp t) (Vec3_sub tp' t).
Proof.
  revert s rp tp. induction rs as [|r rs IH]; intros s rp tp Hh Hr Ht.
  - exists s, tp. cbn [map smooth_frames length]. repeat split; try done;
      change ((1 - PoseSmoother.alphaPose s) ^ Z.of_nat 0) with 1; ring.
  - cbn [map smooth_frames length]. unfold PoseSmoother.smooth at 1.
    rewrite Hh, Hr, Ht. cbn [negb].
    set (a := PoseSmoother.alphaPose s).
    set (s1 := PoseSmoother.mk true _ _ a).
    destruct (IH s1 _ (PoseSmoother.ema a tp t) eq_refl eq_refl eq_refl)
      as (s' & tp' & E & Hh' & Ha' & Ht' & (E0 & E1 & E2)).
    exists s', tp'. split; [exact E|]. split; [exact Hh'|]. split; [exact Ha'|].
    split; [exact Ht'|]. cbn [PoseSmoother.alphaPose s1] in E0, E1, E2.
    unfold Vec3_scaled, Vec3_sub, PoseSmoother.ema in *. cbn [c0 c1 c2] in *.
    rewrite Qpower_succ. split; [|split].
    + rewrite E0. ring.
    + rewrite E1. ring.
    + rewrite E2. ring.
Qed.

End SmoothFrames.

Lemma smooth_translation_converges_witness :
  let s := PoseSmoother.mk true (Some (mkVec3 0 0 0)) (Some (mkVec3 0 0 1)) 0.25 in
  PoseSmoother.hasPose s = true /\
  exists s' tp',
    smooth_frames Rodrigues_rational sample_RodriguesInv sample_quat_cast sample_mat3_cast
      sample_slerp s (map (fun r => (r, mkVec3 0 0 2)) [mkVec3 0 (1 # 2) 0; mkVec3 0 0 0])
    = Some s' /\
    PoseSmoother.tPrev s' = Some tp' /\
    c2 tp' - 2 == (1 - 0.25) ^ 2 * (1 - 2).
Proof.
  intros s. split; [reflexivity|].
  destruct (smooth_translation_converges Rodrigues_rational sample_RodriguesInv
              sample_quat_cast sample_mat3_cast sample_slerp s (mkVec3 0 0 0)
              (mkVec3 0 0 1) (mkVec3 0 0 2) [mkVec3 0 (1 # 2) 0; mkVec3 0 0 0]
              eq_refl eq_refl eq_refl)
    as (s' & tp' & E & _ & _ & Ht & (_ & _ & E2)).
  exists s', tp'. split; [exact E|]. split; [exact Ht|]. exact E2.
Defined.

(** ** The smoother of four image points *)

(** X14. [PtsSmoother::apply] acts on vectors of exactly four points: a
    vector of any other size, longer ones included, is left as it is and
    the state is not touched. On four points the flag is set, the weight is
    kept, the vector returned holds exactly the points now stored, and the
    first call stores and returns the points as given. *)
Theorem apply_four_points (s : PtsSmoother.t) (pts : list Point2f) :
  let s' := (PtsSmoother.apply s pts).1 in
  let pts' := (PtsSmoother.apply s pts).2 in
  length pts' = length pts /\
  (length pts <> 4%nat -> s' = s /\ pts' = pts) /\
  (length pts = 4%nat ->
   PtsSmoother.has s' = true /\ PtsSmoother.alpha s' = PtsSmoother.alpha s /\
   pts' = quad_points (PtsSmoother.prev s') /\
   (PtsSmoother.has s = false -> pts' = pts)).
Proof.
  unfold PtsSmoother.apply.
  destruct pts as [|p0 [|p1 [|p2 [|p3 [|p4 pts]]]]]; cbn [fst snd length];
    try (split; [done|split; [done|intros; discriminate]]).
  destruct (PtsSmoother.has s); cbn [negb fst snd length];
    (split; [done|split; [done|intros _; repeat split; done]]).
Qed.

(** One call of [apply] on a state that holds points. *)
Lemma apply_blend (s : PtsSmoother.t) (p0 p1 p2 p3 : Point2f) :
  PtsSmoother.has s = true ->
  let a := PtsSmoother.alpha s in
  let q := PtsSmoother.prev s in
  (PtsSmoother.apply s [p0; p1; p2; p3]).1
  = PtsSmoother.mk true
      (PtsSmoother.mkquad (PtsSmoother.blend a (PtsSmoother.pt0 q) p0)
                          (PtsSmoother.blend a (PtsSmoother.pt1 q) p1)
                          (PtsSmoother.blend a (PtsSmoother.pt2 q) p2)
                          (PtsSmoother.blend a (PtsSmoother.pt3 q) p3)) a.
Proof. intros H. unfold PtsSmoother.apply. by rewrite H. Qed.

Lemma blend_scaled (a : Q) (q p : Point2f) :
  Point2f_scaled (1 - a) (Point2f_sub q p) (Point2f_sub (PtsSmoother.blend a q p) p).
Proof.
  unfold Point2f_scaled, Point2f_sub, PtsSmoother.blend, pt_add, pt_scale.
  cbn [ptx pty]. split; ring.
Qed.

Lemma Point2f_scaled_step (k a : Q) (n : nat) (d e f : Point2f) :
  Point2f_scaled (1 - a) d e -> Point2f_scaled ((1 - a) ^ Z.of_nat n) e f ->
  Point2f_scaled ((1 - a) ^ Z.of_nat (S n)) d f.
Proof.
  intros [A1 A2] [B1 B2]. unfold Point2f_scaled. rewrite Qpower_succ.
  split; [rewrite B1, A1|rewrite B2, A2]; ring.
Qed.

(** X15. The point filter forgets its history geometrically: while the
    four detected points stay where they are, each call of [apply]
    multiplies the offset of every stored point from its detected point by
    [1 - alpha] on both coordinates. *)
Theorem apply_converges (s : PtsSmoother.t) (p0 p1 p2 p3 : Point2f) (n : nat) :
  PtsSmoother.has s = true ->
  let pts := [p0; p1; p2; p3] in
  let s' := (apply_frames s (replicate n pts)).1 in
  PtsSmoother.has s' = true /\ PtsSmoother.alpha s' = PtsSmoother.alpha s /\
  Forall2 (Point2f_scaled ((1 - PtsSmoother.alpha s) ^ Z.of_nat n))
          (zip_with Point2f_sub (quad_points (PtsSmoother.prev s)) pts)
          (zip_with Point2f_sub (quad_points (PtsSmoother.prev s')) pts).
Proof.
  intros Hh pts. cbv zeta. revert s Hh. induction n as [|n IH]; intros s Hh.
  - cbn [replicate apply_frames fst]. split; [done|]. split; [done|].
    change ((1 - PtsSmoother.alpha s) ^ Z.of_nat 0) with 1.
    unfold quad_points, pts. cbn [zip_with].
    repeat constructor; cbn [ptx pty Point2f_sub]; ring.
  - cbn [replicate apply_frames].
    pose proof (apply_blend s p0 p1 p2 p3 Hh) as E. cbv zeta in E.
    destruct (PtsSmoother.apply s pts) as [s1 out1] eqn:E1.
    unfold pts in E1. rewrite E1 in E. cbn [fst] in E.
    assert (H1 : PtsSmoother.has s1 = true) by by rewrite E.
    destruct (IH s1 H1) as (Hh' & Ha' & HF).
    destruct (apply_frames s1 (replicate n pts)) as [s2 out2]. cbn [fst] in *.
    split; [exact Hh'|]. split; [rewrite Ha', E; done|].
    assert (Ea : PtsSmoother.alpha s1 = PtsSmoother.alpha s) by by rewrite E.
    rewrite Ea in HF.
    unfold quad_points, pts in *. cbn [zip_with] in *.
    rewrite E in HF. cbn [PtsSmoother.prev PtsSmoother.pt0 PtsSmoother.pt1 PtsSmoother.pt2
                          PtsSmoother.pt3] in HF.
    apply Forall2_cons in HF as [F0 HF]. apply Forall2_cons in HF as [F1 HF].
    apply Forall2_cons in HF as [F2 HF]. apply Forall2_cons in HF as [F3 _].
    repeat (constructor; [eapply (Point2f_scaled_step 0); [apply blend_scaled|eassumption]|]).
    constructor.
Qed.

Lemma apply_converges_witness :
  let s := PtsSmoother.mk true
             (PtsSmoother.mkquad (mkPoint2f 0 0) (mkPoint2f 8 0) (mkPoint2f 8 8)
                                 (mkPoint2f 0 8)) 0.35 in
  let pts := [mkPoint2f 1 1; mkPoint2f 9 1; mkPoint2f 9 9; mkPoint2f 1 9] in
  PtsSmoother.has s = true /\
  Forall2 (Point2f_scaled ((1 - PtsSmoother.alpha s) ^ Z.of_nat 3))
          (zip_with Point2f_sub (quad_points (PtsSmoother.prev s)) pts)
          (zip_with Point2f_sub
             (quad_points (PtsSmoother.prev (apply_frames s (replicate 3 pts)).1)) pts).
Proof.
  intros s pts. split; [reflexivity|].
  exact (proj2 (proj2 (apply_converges s (mkPoint2f 1 1) (mkPoint2f 9 1) (mkPoint2f 9 9)
                         (mkPoint2f 1 9) 3 eq_refl))).
Defined.

(** * Properties of the projection and model matrices *)

Local Open Scope Q_scope.

Lemma glm_mul_vec_assoc (A B : glm_mat4) (v : Vec4) :
  Vec4_eq (glm_mul_vec (glm_mul A B) v) (glm_mul_vec A (glm_mul_vec B v)).
Proof.
  destruct A as [[a00 a01 a02 a03] [a10 a11 a12 a13] [a20 a21 a22 a23] [a30 a31 a32 a33]].
  destruct B as [[b00 b01 b02 b03] [b10 b11 b12 b13] [b20 b21 b22 b23] [b30 b31 b32 b33]].
  destruct v as [v0 v1 v2 v3].
  unfold Vec4_eq. cbv [glm_mul glm_mul_vec vec4_add vec4_scale v4x v4y v4z v4w
                        g4col0 g4col1 g4col2 g4col3].
  repeat split; ring.
Qed.

Lemma Vec4_eq_trans (a b c : Vec4) : Vec4_eq a b -> Vec4_eq b c -> Vec4_eq a c.
Proof.
  intros (A0 & A1 & A2 & A3) (B0 & B1 & B2 & B3).
  repeat split; etransitivity; eassumption.
Qed.

Lemma glm_mul_vec_proper (M : glm_mat4) (u v : Vec4) :
  Vec4_eq u v -> Vec4_eq (glm_mul_vec M u) (glm_mul_vec M v).
Proof.
  destruct M as [[a00 a01 a02 a03] [a10 a11 a12 a13] [a20 a21 a22 a23] [a30 a31 a32 a33]].
  destruct u as [u0 u1 u2 u3], v as [v0 v1 v2 v3]. unfold Vec4_eq.
  cbv [glm_mul_vec vec4_add vec4_scale v4x v4y v4z v4w g4col0 g4col1 g4col2 g4col3].
  intros (E0 & E1 & E2 & E3). rewrite E0, E1, E2, E3. repeat split; reflexivity.
Qed.

(** The clip coordinates that the projection gives a point of the camera
    frame. *)
Lemma projection_clip (K : Mat3) (w h n f : Q) (p : Vec3) :
  Vec4_eq (glm_mul_vec (projectionFromCV K w h n f) (gl_point p))
          (mkVec4 (2 * c0 (row0 K) / w * c0 p - (1 - 2 * c2 (row0 K) / w) * c2 p)
                  (- (2 * c1 (row1 K) / h * c1 p) - (2 * c2 (row1 K) / h - 1) * c2 p)
                  (- (- (f + n) / (f - n) * c2 p) + (-2 * f * n / (f - n)))
                  (c2 p)).
Proof.
  unfold Vec4_eq, projectionFromCV, glm_mul_vec, vec4_add, vec4_scale, gl_point.
  cbn [v4x v4y v4z v4w g4col0 g4col1 g4col2 g4col3]. repeat split; ring.
Qed.

(** X16. The projection matrix agrees with the pinhole camera: a point in
    front of the camera, given in the OpenGL frame, gets the clip
    coordinate [w] equal to its depth, and normalised device coordinates
    that are those of the pixel where the camera of intrinsics [K] sees it,
    [x = 2 u / w - 1] and [y = 1 - 2 v / h]. *)
Theorem projection_pinhole (K : Mat3) (w h n f : Q) (p : Vec3) :
  ~ w == 0 -> ~ h == 0 -> ~ c2 p == 0 ->
  let clip := glm_mul_vec (projectionFromCV K w h n f) (gl_point p) in
  v4w clip == c2 p /\
  v4x clip / v4w clip == 2 * pixel_u K p / w - 1 /\
  v4y clip / v4w clip == 1 - 2 * pixel_v K p / h.
Proof.
  intros Hw Hh Hz clip.
  destruct (projection_clip K w h n f p) as (E0 & E1 & _ & E3). fold clip in E0, E1, E3.
  cbn [v4x v4y v4z v4w] in E0, E1, E3.
  split; [exact E3|]. rewrite E0, E1, E3. unfold pixel_u, pixel_v.
  split; field; auto.
Qed.

Lemma projection_pinhole_witness :
  let K := mkMat3 (mkVec3 800 0 320) (mkVec3 0 800 240) (mkVec3 0 0 1) in
  let p := mkVec3 (1 # 10) (-(1 # 20)) (1 # 2) in
  ~ 640 == 0 /\ ~ 480 == 0 /\ ~ c2 p == 0 /\
  v4x (glm_mul_vec (projectionFromCV K 640 480 0.01 2000) (gl_point p))
  / v4w (glm_mul_vec (projectionFromCV K 640 480 0.01 2000) (gl_point p))
  == 2 * pixel_u K p / 640 - 1.
Proof.
  intros K p.
  assert (H1 : ~ 640 == 0) by done. assert (H2 : ~ 480 == 0) by done.
  assert (H3 : ~ c2 p == 0) by done.
  split; [exact H1|]. split; [exact H2|]. split; [exact H3|].
  exact (proj1 (proj2 (projection_pinhole K 640 480 0.01 2000 p H1 H2 H3))).
Defined.

(** X17. The depth range of the clip volume is the interval from the near
    to the far plane: with [0 < n < f], the clip coordinates of a point
    satisfy [-w <= z <= w] exactly when its depth lies in [[n, f]]. *)
Theorem projection_depth_range (K : Mat3) (w h n f : Q) (p : Vec3) :
  0 < n -> n < f ->
  let clip := glm_mul_vec (projectionFromCV K w h n f) (gl_point p) in
  (- v4w clip <= v4z clip /\ v4z clip <= v4w clip) <-> (n <= c2 p /\ c2 p <= f).
Proof.
  intros Hn Hf clip.
  destruct (projection_clip K w h n f p) as (_ & _ & E2 & E3). fold clip in E2, E3.
  cbn [v4x v4y v4z v4w] in E2, E3. rewrite E2, E3.
  assert (He : 0 < / (f - n)) by (apply Qinv_lt_0_compat; lra).
  assert (Hone : (f - n) * / (f - n) == 1) by (apply Qmult_inv_r; lra).
  unfold Qdiv. set (e := / (f - n)) in *. set (z := c2 p).
  assert (A : - (- (f + n) * e * z) + -2 * f * n * e - z == 2 * n * e * (z - f)).
  { transitivity (((f + n) * z - 2 * f * n) * e - z * ((f - n) * e)); [rewrite Hone|]; ring. }
  assert (B : - (- (f + n) * e * z) + -2 * f * n * e + z == 2 * f * e * (z - n)).
  { transitivity (((f + n) * z - 2 * f * n) * e + z * ((f - n) * e)); [rewrite Hone|]; ring. }
  assert (0 < n * e) by nra. assert (0 < f * e) by nra.
  split; intros [H1 H2]; split; nra.
Qed.

Lemma projection_depth_range_witness :
  let K := mkMat3 (mkVec3 800 0 320) (mkVec3 0 800 240) (mkVec3 0 0 1) in
  let clip := glm_mul_vec (projectionFromCV K 640 480 0.01 2000)
                          (gl_point (mkVec3 0 0 (1 # 2))) in
  0 < 0.01 /\ 0.01 < 2000 /\ - v4w clip <= v4z clip /\ v4z clip <= v4w clip.
Proof.
  intros K clip.
  assert (H1 : 0 < 0.01) by qdecide. assert (H2 : 0.01 < 2000) by qdecide.
  split; [exact H1|]. split; [exact H2|].
  apply (proj2 (projection_depth_range K 640 480 0.01 2000 (mkVec3 0 0 (1 # 2)) H1 H2)).
  split; qdecide.
Defined.

Section Model.

Variable Rodrigues : Vec3 -> Mat3.

(** The model matrix sends a board point to the camera point, expressed
    in the OpenGL frame. *)
Lemma model_action (r t p : Vec3) :
  Vec4_eq (glm_mul_vec (modelFromRvecTvec_OpenCVtoGL Rodrigues (Some r) (Some t))
                       (homogeneous p))
          (gl_point (camera_point (Rodrigues r) t p)).
Proof.
  unfold modelFromRvecTvec_OpenCVtoGL. generalize (Rodrigues r) as R.
  intros [[r00 r01 r02] [r10 r11 r12] [r20 r21 r22]].
  destruct t as [t0 t1 t2], p as [x y z].
  unfold Vec4_eq.
  cbv [make_mat4 transpose4 mul4 cvToGl Rt col4 dot4 glm_mul_vec vec4_add vec4_scale
       homogeneous gl_point camera_point mul_vec dot3
       v4x v4y v4z v4w g4col0 g4col1 g4col2 g4col3 m4row0 m4row1 m4row2 m4row3 c0 c1 c2
       row0 row1 row2].
  repeat split; ring.
Qed.

(** X18. The model matrix built from a pose [(rvec, tvec)] sends a point
    of the board to the point [R p + t] of the camera frame with its [y]
    and [z] coordinates negated, as OpenGL wants them, and keeps the
    homogeneous coordinate 1; a pose with an empty vector gives the
    identity. *)
Theorem modelFromRvecTvec_spec (rvec tvec : PoseSmoother.cvMat) (p : Vec3) :
  let M := modelFromRvecTvec_OpenCVtoGL Rodrigues rvec tvec in
  (forall r t, rvec = Some r -> tvec = Some t ->
     Vec4_eq (glm_mul_vec M (homogeneous p)) (gl_point (camera_point (Rodrigues r) t p))) /\
  (rvec = None \/ tvec = None ->
     M = glm_identity /\ Vec4_eq (glm_mul_vec M (homogeneous p)) (homogeneous p)).
Proof.
  intros M. split.
  - intros r t -> ->. apply model_action.
  - intros Hempty.
    assert (E : M = glm_identity).
    { unfold M, modelFromRvecTvec_OpenCVtoGL. destruct Hempty as [-> | ->]; [done|].
      by destruct rvec. }
    split; [exact E|]. rewrite E.
    unfold Vec4_eq, glm_identity, glm_mul_vec, vec4_add, vec4_scale, homogeneous.
    cbn [v4x v4y v4z v4w g4col0 g4col1 g4col2 g4col3]. repeat split; ring.
Qed.

(** X19. The overlay is aligned with the image: a point [p] of the board,
    drawn with the matrix [P * M_board] of the frame loop, lands at the
    normalised device coordinates of the pixel where the camera of
    intrinsics [K] and pose [(rvec, tvec)] sees it, provided the point is
    not in the plane of the optical centre. *)
Theorem overlay_aligned (K : Mat3) (w h n f : Q) (r t p : Vec3) :
  ~ w == 0 -> ~ h == 0 ->
  let q := camera_point (Rodrigues r) t p in
  ~ c2 q == 0 ->
  let MVP := glm_mul (projectionFromCV K w h n f)
                     (modelFromRvecTvec_OpenCVtoGL Rodrigues (Some r) (Some t)) in
  let clip := glm_mul_vec MVP (homogeneous p) in
  v4w clip == c2 q /\
  v4x clip / v4w clip == 2 * pixel_u K q / w - 1 /\
  v4y clip / v4w clip == 1 - 2 * pixel_v K q / h.
Proof.
  intros Hw Hh q Hz MVP clip.
  assert (C : Vec4_eq clip (glm_mul_vec (projectionFromCV K w h n f) (gl_point q))).
  { eapply Vec4_eq_trans; [apply glm_mul_vec_assoc|].
    apply glm_mul_vec_proper, model_action. }
  destruct (Vec4_eq_trans _ _ _ C (projection_clip K w h n f q)) as (C0 & C1 & _ & C3).
  cbn [v4x v4y v4z v4w] in C0, C1, C3.
  split; [exact C3|]. rewrite C0, C1, C3. unfold pixel_u, pixel_v.
  split; field; auto.
Qed.

End Model.

Lemma overlay_aligned_witness :
  let K := mkMat3 (mkVec3 800 0 320) (mkVec3 0 800 240) (mkVec3 0 0 1) in
  let r := mkVec3 0 (1 # 10) 0 in
  let t := mkVec3 0 0 (1 # 2) in
  let p := mkVec3 (1 # 10) (1 # 20) 0 in
  let q := camera_point (Rodrigues_rational r) t p in
  let clip := glm_mul_vec (glm_mul (projectionFromCV K 640 480 0.01 2000)
                (modelFromRvecTvec_OpenCVtoGL Rodrigues_rational (Some r) (Some t)))
                (homogeneous p) in
  ~ 640 == 0 /\ ~ 480 == 0 /\ ~ c2 q == 0 /\
  v4x clip / v4w clip == 2 * pixel_u K q / 640 - 1.
Proof.
  intros K r t p q clip.
  assert (H1 : ~ 640 == 0) by done. assert (H2 : ~ 480 == 0) by done.
  assert (H3 : ~ c2 q == 0) by (vm_compute; discriminate).
  split; [exact H1|]. split; [exact H2|]. split; [exact H3|].
  exact (proj1 (proj2 (overlay_aligned Rodrigues_rational K 640 480 0.01 2000 r t p
                         H1 H2 H3))).
Defined.

(** X20. Adapting the intrinsics to the size of the frames keeps the
    projection: with a viewport of the size of the frames, the matrix built
    from the adapted intrinsics is the one built from the calibrated
    intrinsics with a viewport of the size of the calibration images. *)
Theorem rescale_keeps_projection (K : Mat3) (cols rows calibW calibH : Z) (n f : Q) :
  (0 < cols)%Z -> (0 < rows)%Z -> (0 < calibW)%Z -> (0 < calibH)%Z ->
  glm_mat4_eq
    (projectionFromCV (rescale_intrinsics K cols rows calibW calibH)
                      (inject_Z cols) (inject_Z rows) n f)
    (projectionFromCV K (inject_Z calibW) (inject_Z calibH) n f).
Proof.
  intros Hc Hr Hw Hh.
  assert (Pos : forall z, (0 < z)%Z -> ~ inject_Z z == 0).
  { intros z Hz E. assert (0 < inject_Z z); [|lra].
    change 0 with (inject_Z 0). by rewrite <- Zlt_Qlt. }
  unfold rescale_intrinsics.
  destruct ((cols =? calibW)%Z && (rows =? calibH)%Z) eqn:E; cbn [negb].
  - apply andb_prop in E as [E1 E2]. apply Z.eqb_eq in E1, E2. subst.
    repeat split; reflexivity.
  - unfold glm_mat4_eq, Vec4_eq, projectionFromCV.
    cbn [v4x v4y v4z v4w g4col0 g4col1 g4col2 g4col3 row0 row1 row2 c0 c1 c2].
    repeat split; try reflexivity; field; auto.
Qed.

Lemma rescale_keeps_projection_witness :
  let K := mkMat3 (mkVec3 800 0 320) (mkVec3 0 800 240) (mkVec3 0 0 1) in
  (0 < 1280)%Z /\ (0 < 720)%Z /\ (0 < 640)%Z /\ (0 < 480)%Z /\
  glm_mat4_eq
    (projectionFromCV (rescale_intrinsics K 1280 720 640 480) (inject_Z 1280)
                      (inject_Z 720) 0.01 2000)
    (projectionFromCV K (inject_Z 640) (inject_Z 480) 0.01 2000).
Proof.
  intros K.
  assert (H1 : (0 < 1280)%Z) by lia. assert (H2 : (0 < 720)%Z) by lia.
  assert (H3 : (0 < 640)%Z) by lia. assert (H4 : (0 < 480)%Z) by lia.
  split; [exact H1|]. split; [exact H2|]. split; [exact H3|]. split; [exact H4|].
  exact (rescale_keeps_projection K 1280 720 640 480 0.01 2000 H1 H2 H3 H4).
Defined.

(** * Properties of the maze mesh *)

Local Open Scope Z_scope.

(** [appendBoxSolid] adds one box to a mesh. *)
Lemma appendBoxSolid_ok (x0 y0 z0 x1 y1 z1 : Q) (k : nat) (VI : buffers) :
  mesh_ok k VI -> mesh_ok (S k) (appendBoxSolid x0 y0 z0 x1 y1 z1 VI).
Proof.
  destruct VI as [V I]. intros (HV & HI & Hidx). unfold mesh_ok, appendBoxSolid.
  cbn [fst snd] in *. rewrite !length_app, length_map. cbn [box_vertices box_triangles length].
  split; [lia|]. split; [lia|]. intros Hk.
  assert (Hbase : (Z.of_nat (length V) / 3) mod 2 ^ 32 = 8 * Z.of_nat k).
  { rewrite HV. replace (Z.of_nat (24 * k)) with (8 * Z.of_nat k * 3) by lia.
    rewrite Z.div_mul by lia. apply Z.mod_small. lia. }
  rewrite Hbase.
  replace (Z.of_nat (length V + 24) / 3) with (8 * Z.of_nat k + 8).
  2:{ rewrite HV. replace (Z.of_nat (24 * k + 24)) with ((8 * Z.of_nat k + 8) * 3) by lia.
      by rewrite Z.div_mul by lia. }
  apply Forall_app. split.
  - eapply Forall_impl; [apply Hidx; lia|]. intros i Hi. cbv beta in *.
    rewrite HV in Hi. replace (Z.of_nat (24 * k)) with (8 * Z.of_nat k * 3) in Hi by lia.
    rewrite Z.div_mul in Hi by lia. lia.
  - cbn [map]. repeat (apply Forall_cons; split; [rewrite Z.mod_small by lia; lia|]).
    apply Forall_nil_2.
Qed.

Lemma mesh_ok_eq (k k' : nat) (VI : buffers) : k = k' -> mesh_ok k VI -> mesh_ok k' VI.
Proof. by intros ->. Qed.

Lemma wall_boxes_ok (m : Maze.t) (z0 z1 : Q) (gy gx : Z) (k : nat) (VI : buffers) :
  mesh_ok k VI -> mesh_ok (k + cell_boxes m gy gx) (wall_boxes m z0 z1 gy gx VI).
Proof.
  intros H. unfold wall_boxes, cell_boxes. cbv zeta.
  destruct (Maze.wN (Maze.at_ m gx gy)), (Maze.wW (Maze.at_ m gx gy)),
    ((gx =? Maze.w m - 1) && Maze.wE (Maze.at_ m gx gy)),
    ((gy =? Maze.h m - 1) && Maze.wS (Maze.at_ m gx gy)); cbn [b2n];
    (eapply mesh_ok_eq; cycle 1; [repeat apply appendBoxSolid_ok; exact H|lia]).
Qed.

Lemma wall_row_ok (m : Maze.t) (z0 z1 : Q) (gy : Z) (cols : list Z) (k : nat) (VI : buffers) :
  mesh_ok k VI ->
  mesh_ok (k + sum_list (map (cell_boxes m gy) cols))
          (fold_left (fun VI gx => wall_boxes m z0 z1 gy gx VI) cols VI).
Proof.
  revert k VI. induction cols as [|gx cols IH]; intros k VI H.
  - cbn. by rewrite Nat.add_0_r.
  - cbn [fold_left map].
    apply (mesh_ok_eq (k + cell_boxes m gy gx + sum_list (map (cell_boxes m gy) cols)));
      [cbn; lia|].
    apply IH. by apply wall_boxes_ok.
Qed.

Lemma wall_rows_ok (m : Maze.t) (z0 z1 : Q) (rows cols : list Z) (k : nat) (VI : buffers) :
  mesh_ok k VI ->
  mesh_ok (k + sum_list (map (fun gy => sum_list (map (cell_boxes m gy) cols)) rows))
          (fold_left (fun VI gy =>
                        fold_left (fun VI gx => wall_boxes m z0 z1 gy gx VI) cols VI)
                     rows VI).
Proof.
  revert k VI. induction rows as [|gy rows IH]; intros k VI H.
  - cbn. by rewrite Nat.add_0_r.
  - cbn [fold_left map].
    apply (mesh_ok_eq
             (k + sum_list (map (cell_boxes m gy) cols)
              + sum_list (map (fun gy => sum_list (map (cell_boxes m gy) cols)) rows)));
      [cbn; lia|].
    apply IH. by apply wall_row_ok.
Qed.

(** X21. The mesh that [createMazeWallsSolidFromMaze] builds is well
    formed: for the four border boxes and each wall box of the cells it
    holds 8 vertices (24 floats) and 12 triangles (36 indices), and, as
    long as the number of vertices fits [uint32_t], every index of the
    index buffer points to a vertex of the vertex buffer. *)
Theorem maze_mesh_ok (m : Maze.t) (wallH : Q) :
  let VI := createMazeWallsSolidFromMaze m wallH in
  let k := maze_boxes m in
  length VI.1 = (24 * k)%nat /\ length VI.2 = (36 * k)%nat /\
  (8 * Z.of_nat k <= 2 ^ 32 ->
   Forall (fun i => 0 <= i < Z.of_nat (length VI.1) / 3) VI.2).
Proof.
  cbv zeta. unfold createMazeWallsSolidFromMaze, maze_boxes.
  apply (wall_rows_ok m 0%Q wallH _ _ 4).
  do 4 apply appendBoxSolid_ok. repeat split; [done..|]. intros _. constructor.
Qed.

(** * Properties of the OBJ loader *)

Local Open Scope Z_scope.

(** X22. The position index of a face is accepted exactly when it names
    one of the [n] positions read so far, counting from 1, or from [-1] for
    the last one backwards; it is then turned into the index from 0 of that
    position. The index 0 and the indices beyond the positions read are
    dropped. *)
Theorem face_key_accepts (n : Z) (tok : Z * Z * Z) (k : VKey) :
  0 <= n ->
  face_key n tok = Some k <->
  ((1 <= tok.1.1 <= n /\ vi k = tok.1.1 - 1) \/ (- n <= tok.1.1 <= -1 /\ vi k = n + tok.1.1)) /\
  ti k = (if tok.1.2 =? 0 then -1 else 0) /\ ni k = (if tok.2 =? 0 then -1 else 0).
Proof.
  intros Hn. destruct tok as [[a b] c]. cbn [fst snd]. unfold face_key, fixIndex.
  cbn [fst snd vi]. destruct k as [kv kt kn]. cbn [vi ti ni].
  split.
  - intros H. repeat case_match; try discriminate; injection H as <- <- <-;
      (split; [|done]); lia.
  - intros [Hv [-> ->]].
    repeat case_match; try lia; f_equal; f_equal; lia.
Qed.

Lemma face_key_accepts_witness :
  0 <= 5 /\ face_key 5 (-2, 0, 7) = Some (mkVKey 3 (-1) 0).
Proof.
  split; [lia|].
  apply (face_key_accepts 5 (-2, 0, 7) (mkVKey 3 (-1) 0)); [lia|].
  cbn. repeat split; lia.
Defined.

(** ** The buffers of [loadOBJMesh] *)

Lemma VKey_eqb_refl (k : VKey) : VKey_eqb k k = true.
Proof. unfold VKey_eqb. by rewrite !Z.eqb_refl. Qed.

Lemma dedup_find_app (k : VKey) (d e : list (VKey * Z)) :
  dedup_find k (d ++ e) =
  match dedup_find k d with Some id => Some id | None => dedup_find k e end.
Proof.
  unfold dedup_find. induction d as [|x d IH]; [done|].
  cbn [app List.find]. destruct (VKey_eqb k x.1); [done|exact IH].
Qed.

Lemma dedup_find_in (k : VKey) (d : list (VKey * Z)) (id : Z) :
  dedup_find k d = Some id -> exists e, e ∈ d /\ e.2 = id.
Proof.
  unfold dedup_find. destruct (List.find _ d) as [e|] eqn:E; [|done].
  intros [= <-]. apply find_some in E as [Hin _]. exists e.
  split; [by apply list_elem_of_In|done].
Qed.

(** X23. [getOrCreate] shares the vertices: asked again for the key it
    was just asked for, it returns the same index and adds nothing to the
    buffers or to the map. *)
Theorem getOrCreate_again (st : obj_state) (k : VKey) :
  getOrCreate (getOrCreate st k).1 k = getOrCreate st k.
Proof.
  unfold getOrCreate at 2 3. destruct (dedup_find k (dedup st)) as [id|] eqn:E.
  - cbn [fst]. unfold getOrCreate. by rewrite E.
  - cbn [fst]. unfold getOrCreate at 1. cbn [dedup].
    rewrite dedup_find_app, E. unfold dedup_find. cbn [List.find fst snd].
    by rewrite VKey_eqb_refl.
Qed.

(** The count of vertices after three floats are added. *)
Lemma div3_succ (nv : nat) : Z.of_nat (3 * nv + 3) / 3 = Z.of_nat nv + 1.
Proof.
  replace (Z.of_nat (3 * nv + 3)) with ((Z.of_nat nv + 1) * 3) by lia.
  by rewrite Z.div_mul.
Qed.

Lemma div3_exact (nv : nat) : Z.of_nat (3 * nv) / 3 = Z.of_nat nv.
Proof.
  replace (Z.of_nat (3 * nv)) with (Z.of_nat nv * 3) by lia. by rewrite Z.div_mul.
Qed.

(** [getOrCreate] keeps the buffers consistent and returns the index of a
    vertex. *)
Lemma getOrCreate_ok (st : obj_state) (k : VKey) :
  obj_ok st ->
  let st' := (getOrCreate st k).1 in
  let id := (getOrCreate st k).2 in
  obj_ok st' /\ objV st' = objV st /\ outIdx st' = outIdx st /\
  (length (outPos st) <= length (outPos st'))%nat /\
  (Z.of_nat (length (outPos st')) / 3 <= 2 ^ 32 ->
   0 <= id < Z.of_nat (length (outPos st')) / 3).
Proof.
  intros ([nv Hnv] & Hnt & Hidx). cbv zeta in Hidx. unfold getOrCreate.
  destruct (dedup_find k (dedup st)) as [id|] eqn:E; cbn [fst snd].
  - split; [by split; [exists nv|]|]. split; [done|]. split; [done|]. split; [done|].
    intros Hb. destruct (Hidx Hb) as [_ Hd].
    apply dedup_find_in in E as (e & He & <-).
    by apply (proj1 (Forall_forall _ _) Hd).
  - unfold obj_ok. cbn [outPos outIdx objV dedup]. rewrite !length_app. cbn [length].
    rewrite Hnv in *. rewrite !div3_succ. rewrite div3_exact in Hidx.
    split; [|split; [done|split; [done|split; [lia|]]]].
    + split; [exists (S nv); lia|]. split; [exact Hnt|]. intros Hb.
      destruct (Hidx ltac:(lia)) as [Hi Hd]. split.
      * eapply Forall_impl; [exact Hi|]. intros i Hi'. cbv beta in *. lia.
      * apply Forall_app. split.
        -- eapply Forall_impl; [exact Hd|]. intros e He. cbv beta in *. lia.
        -- apply Forall_singleton. cbn [snd]. rewrite div3_exact.
           rewrite Z.mod_small by lia. lia.
    + intros Hb. rewrite div3_exact. rewrite Z.mod_small by lia. lia.
Qed.

(** Adding a triangle of three vertex indices. *)
Lemma push_triangle_ok (st : obj_state) (i0 i1 i2 : Z) :
  obj_ok st ->
  (Z.of_nat (length (outPos st)) / 3 <= 2 ^ 32 ->
   (0 <= i0 < Z.of_nat (length (outPos st)) / 3) /\
   (0 <= i1 < Z.of_nat (length (outPos st)) / 3) /\
   (0 <= i2 < Z.of_nat (length (outPos st)) / 3)) ->
  obj_ok (mkObj (objV st) (outPos st) (outIdx st ++ [i0; i1; i2]) (dedup st)).
Proof.
  intros (Hnv & [nt Hnt] & Hidx) Hi. split; [exact Hnv|]. split.
  - exists (S nt). cbn [outIdx]. rewrite length_app. cbn [length]. lia.
  - cbv zeta in *. cbn [outPos outIdx dedup]. intros Hb.
    destruct (Hidx Hb) as [H1 H2]. destruct (Hi Hb) as (A & B & C).
    split; [|exact H2]. apply Forall_app. split; [exact H1|].
    repeat (apply Forall_cons; split; [done|]). apply Forall_nil_2.
Qed.

Lemma fan_cons (st : obj_state) (i0 : Z) (a b : VKey) (tl : list VKey) :
  fan st i0 (a :: b :: tl) =
  let '(st1, i1) := getOrCreate st a in
  let '(st2, i2) := getOrCreate st1 b in
  fan (mkObj (objV st2) (outPos st2) (outIdx st2 ++ [i0; i1; i2]) (dedup st2)) i0 (b :: tl).
Proof. reflexivity. Qed.

Lemma fan_ok (rest : list VKey) :
  forall (st : obj_state) (i0 : Z),
    obj_ok st ->
    (Z.of_nat (length (outPos st)) / 3 <= 2 ^ 32 ->
     0 <= i0 < Z.of_nat (length (outPos st)) / 3) ->
    obj_ok (fan st i0 rest) /\ objV (fan st i0 rest) = objV st.
Proof.
  induction rest as [|a rest IH]; intros st i0 Hok H0; [done|].
  destruct rest as [|b rest]; [done|].
  rewrite fan_cons.
  destruct (getOrCreate_ok st a Hok) as (Hok1 & HV1 & _ & Hle1 & Hi1).
  destruct (getOrCreate st a) as [st1 i1]. cbn [fst snd] in *.
  destruct (getOrCreate_ok st1 b Hok1) as (Hok2 & HV2 & _ & Hle2 & Hi2).
  destruct (getOrCreate st1 b) as [st2 i2]. cbn [fst snd] in *.
  assert (Hmono : forall x y : nat, (x <= y)%nat -> Z.of_nat x / 3 <= Z.of_nat y / 3).
  { intros x y Hxy. apply Z.div_le_mono; lia. }
  pose proof (Hmono _ _ Hle1) as M1. pose proof (Hmono _ _ Hle2) as M2.
  set (st3 := mkObj (objV st2) (outPos st2) (outIdx st2 ++ [i0; i1; i2]) (dedup st2)).
  assert (Hok3 : obj_ok st3).
  { apply push_triangle_ok; [done|]. intros Hb. split; [|split]; [| |by apply Hi2].
    - specialize (H0 ltac:(lia)). lia.
    - specialize (Hi1 ltac:(lia)). lia. }
  destruct (IH st3 i0 Hok3) as [Hok' HV'].
  { cbn [st3 outPos]. intros Hb. specialize (H0 ltac:(lia)). lia. }
  split; [exact Hok'|]. rewrite HV'. cbn [st3 objV]. congruence.
Qed.

Lemma obj_step_ok (st : obj_state) (l : obj_line) : obj_ok st -> obj_ok (obj_step st l).
Proof.
  intros Hok. destruct l as [p|toks|]; cbn [obj_step]; [exact Hok| |exact Hok].
  destruct (face_keys _ toks) as [|k0 rest]; [exact Hok|].
  destruct (length (k0 :: rest) <? 3)%nat; [exact Hok|].
  destruct (getOrCreate_ok st k0 Hok) as (Hok1 & _ & _ & _ & Hi0).
  destruct (getOrCreate st k0) as [st1 i0]. cbn [fst snd] in *.
  by apply fan_ok.
Qed.

(** X24. Whatever the lines of the file, [loadOBJMesh] fills consistent
    buffers: the vertex buffer holds three floats a vertex, the index
    buffer three indices a triangle, and, as long as the number of vertices
    fits [uint32_t], every index given out points to a vertex of the vertex
    buffer. *)
Theorem obj_load_ok (lines : list obj_line) : obj_ok (obj_load lines).
Proof.
  unfold obj_load.
  assert (H : obj_ok obj_init).
  { split; [by exists 0%nat|]. split; [by exists 0%nat|]. cbv zeta. intros _. split; constructor. }
  revert H. generalize obj_init as st. induction lines as [|l' lines IH]; intros st H;
    [done|].
  cbn [fold_left]. apply IH. by apply obj_step_ok.
Qed.
